(** * codex: the SELECT builder ([tree/managers/select_manager.go]) and the
    table accessor ([table.go]) as a shallow embedding.

    Go pointers are addresses into a typed store; every struct that the
    builder reaches through a pointer ([*RelationNode], [*InnerJoinNode],
    [*OuterJoinNode], [*SelectCoreNode], [*SelectStatementNode],
    [*SelectManager]) lives in its own finite map.  A [nil] or dangling
    pointer is an address outside the map, and dereferencing it panics.

    Package [nodes] and the visitors are not among the sources at hand: the
    node constructors and the visitor interface are modelled from the prose
    specification, and the visitor registry is a parameter.  The
    string-concatenating statements of package [librarian] ([statement.go])
    are a separate, older builder; of it, [Select] and the two result-row
    helpers are modelled, and the text rendering and the database calls are
    not. *)

From Stdlib Require Import ZArith String List.
From stdpp Require Import base option list gmap strings.

Open Scope string_scope.
Open Scope list_scope.

Abbreviation loc := positive.

(** ** Values of type [interface{}] *)

(** What the builder methods receive and store in their [interface{}]
    parameters and slices.  Nodes that no code of the builder mutates are
    plain values; join nodes are mutated by [On] and are pointers. *)
Inductive value : Type :=
| GoString (s : string)
| GoInt (n : Z)
| RelationPtr (r : loc)
| AccessorVal (bound : loc)
| ColumnNode (name : value)
| StarNode
| AttributeNode (name : value) (relation : loc)
| LiteralNode (v : value)
| GroupingNode (v : value)
| OnNode (v : value)
| HavingNode (v : value)
| LimitNode (n : Z)
| OffsetNode (n : Z)
| InnerJoinPtr (j : loc)
| OuterJoinPtr (j : loc)
| UnionNode (left right : loc)
| IntersectNode (left right : loc)
| ExceptNode (left right : loc).

#[global] Instance value_eq_dec : EqDecision value.
Proof. solve_decision. Defined.

(** The type test [_, ok := x.(string)]. *)
Definition is_string (x : value) : bool :=
  match x with GoString _ => true | _ => false end.

(** The values that Go can hash when they are used as a map key behind an
    [interface{}]: strings, integers and pointers (the nodes are pointers in
    the sources), and not an accessor, which is a func; indexing a map with a
    func panics. *)
Definition hashable (key : value) : bool :=
  match key with AccessorVal _ => false | _ => true end.

(** ** Structs *)

Record RelationNode := { Name : string }.

(** Both join node types have the same two fields. *)
Record JoinNode := { JoinLeft : loc; JoinRight : option value }.

Record JoinSourceNode := { Left : loc; Right : list value }.

Record SelectCoreNode := {
  Relation : loc;
  Source : JoinSourceNode;
  Projections : list value;
  Wheres : list value;
  Groups : list value;
  Having : option value
}.

Record SelectStatementNode := {
  Cores : list loc;
  Orders : list value;
  Limit : option value;
  Offset : option value;
  Combinator : option value
}.

Record SelectManager := {
  Tree : loc;
  Context : loc;
  engine : option value
}.


(** Field assignments. *)
Definition set_JoinRight (x : option value) (j : JoinNode) : JoinNode :=
  {| JoinLeft := JoinLeft j; JoinRight := x |}.

Definition set_Right (x : list value) (s : JoinSourceNode) : JoinSourceNode :=
  {| Left := Left s; Right := x |}.

Definition set_Source (x : JoinSourceNode) (c : SelectCoreNode) : SelectCoreNode :=
  {| Relation := Relation c; Source := x; Projections := Projections c;
     Wheres := Wheres c; Groups := Groups c; Having := Having c |}.

Definition set_Projections (x : list value) (c : SelectCoreNode) : SelectCoreNode :=
  {| Relation := Relation c; Source := Source c; Projections := x;
     Wheres := Wheres c; Groups := Groups c; Having := Having c |}.

Definition set_Wheres (x : list value) (c : SelectCoreNode) : SelectCoreNode :=
  {| Relation := Relation c; Source := Source c; Projections := Projections c;
     Wheres := x; Groups := Groups c; Having := Having c |}.

Definition set_Groups (x : list value) (c : SelectCoreNode) : SelectCoreNode :=
  {| Relation := Relation c; Source := Source c; Projections := Projections c;
     Wheres := Wheres c; Groups := x; Having := Having c |}.

Definition set_Having (x : option value) (c : SelectCoreNode) : SelectCoreNode :=
  {| Relation := Relation c; Source := Source c; Projections := Projections c;
     Wheres := Wheres c; Groups := Groups c; Having := x |}.

Definition set_Orders (x : list value) (t : SelectStatementNode) : SelectStatementNode :=
  {| Cores := Cores t; Orders := x; Limit := Limit t; Offset := Offset t;
     Combinator := Combinator t |}.

Definition set_Limit (x : option value) (t : SelectStatementNode) : SelectStatementNode :=
  {| Cores := Cores t; Orders := Orders t; Limit := x; Offset := Offset t;
     Combinator := Combinator t |}.

Definition set_Offset (x : option value) (t : SelectStatementNode) : SelectStatementNode :=
  {| Cores := Cores t; Orders := Orders t; Limit := Limit t; Offset := x;
     Combinator := Combinator t |}.

Definition set_Combinator (x : option value) (t : SelectStatementNode) : SelectStatementNode :=
  {| Cores := Cores t; Orders := Orders t; Limit := Limit t; Offset := Offset t;
     Combinator := x |}.

Definition set_engine (x : option value) (m : SelectManager) : SelectManager :=
  {| Tree := Tree m; Context := Context m; engine := x |}.

(** ** The store *)

Record Heap := {
  relation_store : gmap loc RelationNode;
  join_store : gmap loc JoinNode;
  core_store : gmap loc SelectCoreNode;
  statement_store : gmap loc SelectStatementNode;
  manager_store : gmap loc SelectManager
}.

Definition empty_heap : Heap :=
  {| relation_store := ∅; join_store := ∅; core_store := ∅; statement_store := ∅; manager_store := ∅ |}.

Definition with_relations (x : gmap loc RelationNode) (h : Heap) : Heap :=
  {| relation_store := x; join_store := join_store h; core_store := core_store h;
     statement_store := statement_store h; manager_store := manager_store h |}.

Definition with_joins (x : gmap loc JoinNode) (h : Heap) : Heap :=
  {| relation_store := relation_store h; join_store := x; core_store := core_store h;
     statement_store := statement_store h; manager_store := manager_store h |}.

Definition with_cores (x : gmap loc SelectCoreNode) (h : Heap) : Heap :=
  {| relation_store := relation_store h; join_store := join_store h; core_store := x;
     statement_store := statement_store h; manager_store := manager_store h |}.

Definition with_statements (x : gmap loc SelectStatementNode) (h : Heap) : Heap :=
  {| relation_store := relation_store h; join_store := join_store h; core_store := core_store h;
     statement_store := x; manager_store := manager_store h |}.

Definition with_managers (x : gmap loc SelectManager) (h : Heap) : Heap :=
  {| relation_store := relation_store h; join_store := join_store h; core_store := core_store h;
     statement_store := statement_store h; manager_store := x |}.

(** ** Computations over the store *)

(** A Go call either returns (a result and the store it leaves) or panics. *)
Inductive outcome (A : Type) : Type :=
| Returns (a : A) (h : Heap)
| Panics.
Arguments Returns {A} a h.
Arguments Panics {A}.

Definition M (A : Type) : Type := Heap -> outcome A.

Definition ret {A} (a : A) : M A := fun h => Returns a h.

Definition bind {A B} (c : M A) (k : A -> M B) : M B :=
  fun h => match c h with
           | Returns a h' => k a h'
           | Panics => Panics
           end.

Definition panic {A} : M A := fun _ => Panics.

Declare Scope go_scope.
Delimit Scope go_scope with go.
Notation "x <- c ;; k" := (bind c (fun x => k))
  (at level 100, c at next level, right associativity) : go_scope.
Notation "c ;;; k" := (bind c (fun _ => k))
  (at level 100, right associativity) : go_scope.
Open Scope go_scope.

(** Pointer dereference for reading: [*p]. *)
Definition deref {A} (sel : Heap -> gmap loc A) (p : loc) : M A :=
  fun h => match sel h !! p with
           | Some a => Returns a h
           | None => Panics
           end.

(** [new(T)] followed by the initialising assignments: the address is one the
    map does not hold yet. *)
Definition alloc {A} (sel : Heap -> gmap loc A)
    (upd : gmap loc A -> Heap -> Heap) (a : A) : M loc :=
  fun h => let p := fresh (dom (sel h)) in Returns p (upd (<[p := a]> (sel h)) h).

(** Assignment through a pointer the caller has already dereferenced. *)
Definition store {A} (sel : Heap -> gmap loc A)
    (upd : gmap loc A -> Heap -> Heap) (p : loc) (a : A) : M unit :=
  fun h => match sel h !! p with
           | Some _ => Returns tt (upd (<[p := a]> (sel h)) h)
           | None => Panics
           end.

(** [for _, x := range xs { body }]. *)
Fixpoint for_range {A} (xs : list A) (body : A -> M unit) : M unit :=
  match xs with
  | [] => ret tt
  | x :: xs' => body x ;;; for_range xs' body
  end.

(** ** Package [nodes] *)

Module nodes.

(** Modelled from the spec: [nodes.SelectCore] is absent from the sources; a
    core over the relation, its source holding the relation and no join,
    "default Projections is empty". *)
Definition SelectCore (relation : loc) : M loc :=
  alloc core_store with_cores
    {| Relation := relation;
       Source := {| Left := relation; Right := [] |};
       Projections := []; Wheres := []; Groups := []; Having := None |}.

(** Modelled from the spec: [nodes.SelectStatement] is absent from the
    sources; the statement root "created with exactly one core referencing
    the initial relation". *)
Definition SelectStatement (relation : loc) : M loc :=
  core <- SelectCore relation;;
  alloc statement_store with_statements
    {| Cores := [core]; Orders := []; Limit := None; Offset := None;
       Combinator := None |}.

(** Modelled from the spec: [nodes.Relation] is absent from the sources; it
    creates the RelationNode "a named table/source" with its name. *)
Definition Relation (name : string) : M loc :=
  alloc relation_store with_relations {| Name := name |}.

(** Modelled from the spec: [nodes.Column] is absent from the sources; "a bare
    column name" node around its argument. *)
Definition Column (name : value) : value := ColumnNode name.

(** Modelled from the spec: [nodes.Star] is absent from the sources; the
    "wildcard marker". *)
Definition Star : value := StarNode.

(** Modelled from the spec: [nodes.Attribute] is absent from the sources; "a
    column scoped to a relation" with a non-owning relation reference. *)
Definition Attribute (name : value) (relation : loc) : value :=
  AttributeNode name relation.

(** Modelled from the spec: [nodes.Literal] is absent from the sources; "a raw
    SQL fragment inserted verbatim". *)
Definition Literal (v : value) : value := LiteralNode v.

(** Modelled from the spec: [nodes.Grouping] is absent from the sources; "a
    parenthesized expression wrapper". *)
Definition Grouping (v : value) : value := GroupingNode v.

(** Modelled from the spec: [nodes.On] is absent from the sources; the "join
    predicate wrapper". *)
Definition On (v : value) : value := OnNode v.

(** Modelled from the spec: [nodes.Having], [nodes.Limit] and [nodes.Offset]
    are absent from the sources; clause nodes around their argument. *)
Definition Having (v : value) : value := HavingNode v.
Definition Limit (n : Z) : value := LimitNode n.
Definition Offset (n : Z) : value := OffsetNode n.

(** Modelled from the spec: [nodes.InnerJoin] and [nodes.OuterJoin] are absent
    from the sources; "a join clause, left=Relation, right=On-node or nil",
    returned as a pointer ([On] assigns through it). *)
Definition InnerJoin (left : loc) (right : option value) : M value :=
  j <- alloc join_store with_joins {| JoinLeft := left; JoinRight := right |};;
  ret (InnerJoinPtr j).

Definition OuterJoin (left : loc) (right : option value) : M value :=
  j <- alloc join_store with_joins {| JoinLeft := left; JoinRight := right |};;
  ret (OuterJoinPtr j).

(** Modelled from the spec: [nodes.Union], [nodes.Intersect] and
    [nodes.Except] are absent from the sources; "a binary set operation over
    two whole statements", holding the two statement pointers. *)
Definition Union (left right : loc) : value := UnionNode left right.
Definition Intersect (left right : loc) : value := IntersectNode left right.
Definition Except (left right : loc) : value := ExceptNode left right.

End nodes.

(** ** Package [managers] *)

(** Modelled from the spec: the visitor interface is absent from the sources;
    a renderer "exposing Accept(statement) -> (string, error)", rendering
    being "a pure, side-effect-free, re-entrant function of the tree's
    current state": it reads the store and leaves it as it is. *)
Record Visitor := { Accept : Heap -> loc -> string * option string }.

Module managers.

(** Modelled from the spec: the method [Accessor.Relation] is absent from the
    sources; it "extracts its bound Relation".  An accessor is the closure
    that [Table] returns, represented by the relation it captured. *)
Definition Accessor_Relation (a : value) : M loc :=
  match a with
  | AccessorVal relation => ret relation
  | _ => panic
  end.

Section registry.

(** The package-level map [VISITORS], absent from the sources: a Go map
    from engine keys to visitors (an interface value, [nil] for a key that
    has no entry). *)
Variable VISITORS : value -> option Visitor.

(** The string test and conversion that opens [Project], [Where], [Order],
    [Group] and [Having]. *)
Definition literal_of_string (x : value) : value :=
  if is_string x then nodes.Literal x else x.

Definition Project (self : loc) (projections : list value) : M loc :=
  for_range projections (fun projection =>
    let projection := literal_of_string projection in
    m <- deref manager_store self;;
    c <- deref core_store (Context m);;
    store core_store with_cores (Context m)
      (set_Projections (Projections c ++ [projection]) c));;;
  ret self.

Definition Where (self : loc) (expr : value) : M loc :=
  let expr := literal_of_string expr in
  m <- deref manager_store self;;
  c <- deref core_store (Context m);;
  store core_store with_cores (Context m)
    (set_Wheres (Wheres c ++ [nodes.Grouping expr]) c);;;
  ret self.

Definition Offset (self : loc) (skip : Z) : M loc :=
  m <- deref manager_store self;;
  t <- deref statement_store (Tree m);;
  store statement_store with_statements (Tree m)
    (set_Offset (Some (nodes.Offset skip)) t);;;
  ret self.

Definition Limit (self : loc) (take : Z) : M loc :=
  m <- deref manager_store self;;
  t <- deref statement_store (Tree m);;
  store statement_store with_statements (Tree m)
    (set_Limit (Some (nodes.Limit take)) t);;;
  ret self.

(** [self.Context.Source.Right = append(self.Context.Source.Right, j)]. *)
Definition append_join (self : loc) (mk : M value) : M unit :=
  m <- deref manager_store self;;
  c <- deref core_store (Context m);;
  j <- mk;;
  store core_store with_cores (Context m)
    (set_Source (set_Right (Right (Source c) ++ [j]) (Source c)) c).

Definition InnerJoin (self : loc) (table : value) : M loc :=
  match table with
  | AccessorVal _ =>
      append_join self (r <- Accessor_Relation table;; nodes.InnerJoin r None);;;
      ret self
  | RelationPtr r =>
      append_join self (nodes.InnerJoin r None);;;
      ret self
  | _ => ret self
  end.

Definition OuterJoin (self : loc) (table : value) : M loc :=
  match table with
  | AccessorVal _ =>
      append_join self (r <- Accessor_Relation table;; nodes.OuterJoin r None);;;
      ret self
  | RelationPtr r =>
      append_join self (nodes.OuterJoin r None);;;
      ret self
  | _ => ret self
  end.

(** The assignment to the [Right] field of the join node behind the pointer
    [j], as both cases of the type switch of [On] do it. *)
Definition assign_join_Right (j : loc) (x : value) : M unit :=
  jn <- deref join_store j;;
  store join_store with_joins j (set_JoinRight (Some x) jn).

Definition On (self : loc) (expr : value) : M loc :=
  m <- deref manager_store self;;
  c <- deref core_store (Context m);;
  let joins := Right (Source c) in
  if (length joins =? 0)%nat then ret self
  else
    match last joins with
    | Some (InnerJoinPtr j) => assign_join_Right j (nodes.On expr);;; ret self
    | Some (OuterJoinPtr j) => assign_join_Right j (nodes.On expr);;; ret self
    | _ => ret self
    end.

Definition Order (self : loc) (expr : value) : M loc :=
  let expr := literal_of_string expr in
  m <- deref manager_store self;;
  t <- deref statement_store (Tree m);;
  store statement_store with_statements (Tree m)
    (set_Orders (Orders t ++ [expr]) t);;;
  ret self.

Definition Group (self : loc) (groupings : list value) : M loc :=
  for_range groupings (fun group =>
    let group := literal_of_string group in
    m <- deref manager_store self;;
    c <- deref core_store (Context m);;
    store core_store with_cores (Context m)
      (set_Groups (Groups c ++ [group]) c));;;
  ret self.

Definition Having (self : loc) (expr : value) : M loc :=
  let expr := literal_of_string expr in
  m <- deref manager_store self;;
  c <- deref core_store (Context m);;
  store core_store with_cores (Context m)
    (set_Having (Some (nodes.Having expr)) c);;;
  ret self.

(** [self.Tree.Combinator = mk(self.Tree, manager.Tree)]. *)
Definition combine (mk : loc -> loc -> value) (self manager : loc) : M loc :=
  m <- deref manager_store self;;
  o <- deref manager_store manager;;
  t <- deref statement_store (Tree m);;
  store statement_store with_statements (Tree m)
    (set_Combinator (Some (mk (Tree m) (Tree o))) t);;;
  ret self.

Definition Union (self manager : loc) : M loc := combine nodes.Union self manager.

Definition Intersect (self manager : loc) : M loc :=
  combine nodes.Intersect self manager.

Definition Except (self manager : loc) : M loc := combine nodes.Except self manager.

(** [VISITORS[engine]] hashes the key: a key that cannot be hashed panics,
    and a Go map holds no such key, so a key with an entry can be hashed. *)
Definition Engine (self : loc) (engine : value) : M loc :=
  match VISITORS engine with
  | Some _ =>
      m <- deref manager_store self;;
      store manager_store with_managers self (set_engine (Some engine) m);;;
      ret self
  | None => if hashable engine then ret self else panic
  end.

(** The loop of [ToSql]: every core of the list whose projections are empty
    receives the star attribute of its own relation. *)
Definition default_projections (cores : list loc) : M unit :=
  for_range cores (fun core =>
    c <- deref core_store core;;
    if (length (Projections c) =? 0)%nat
    then store core_store with_cores core
           (set_Projections
              (Projections c ++ [nodes.Attribute nodes.Star (Relation c)]) c)
    else ret tt).

(** [VISITORS[key].Accept(tree)]: a key without entry yields the nil
    interface, and the method call on it panics. *)
Definition accept (key : option value) (tree : loc) : M (string * option string) :=
  match key with
  | Some k =>
      match VISITORS k with
      | Some v => fun h => Returns (Accept v h tree) h
      | None => panic
      end
  | None => panic
  end.

Definition ToSql (self : loc) : M (string * option string) :=
  m <- deref manager_store self;;
  t <- deref statement_store (Tree m);;
  default_projections (Cores t);;;
  m <- deref manager_store self;;
  (match engine m with
   | None => store manager_store with_managers self
               (set_engine (Some (GoString "to_sql")) m)
   | Some _ => ret tt
   end);;;
  m <- deref manager_store self;;
  accept (engine m) (Tree m).

(** [new(SelectManager)] and the two assignments, allocated with its fields;
    [Cores[0]] panics on an empty slice. *)
Definition Selection (relation : loc) : M loc :=
  tree <- nodes.SelectStatement relation;;
  t <- deref statement_store tree;;
  match Cores t !! 0%nat with
  | Some core =>
      alloc manager_store with_managers
        {| Tree := tree; Context := core; engine := None |}
  | None => panic
  end.

End registry.

End managers.

(** ** Package [codex] *)

Module codex.

(** [Table] creates the relation and returns the closure over it, which is
    the accessor value bound to that relation. *)
Definition Table (name : string) : M value :=
  relation <- nodes.Relation name;;
  ret (AccessorVal relation).

(** Calling the closure that [Table] returned: its body, with the captured
    [relation]. *)
Definition call (accessor : value) (name : value) : M value :=
  match accessor with
  | AccessorVal relation =>
      if is_string name
      then ret (nodes.Attribute (nodes.Column name) relation)
      else ret (nodes.Attribute name relation)
  | _ => panic
  end.

End codex.

(** * Definitions for the statements *)

(** What the loop of [ToSql] does to one core. *)
Definition star_default (c : SelectCoreNode) : SelectCoreNode :=
  if (length (Projections c) =? 0)%nat
  then set_Projections
         (Projections c ++ [nodes.Attribute nodes.Star (Relation c)]) c
  else c.

(** Every pointer of the list is allocated in the core store. *)
Definition cores_allocated (h : Heap) (cs : list loc) : bool :=
  forallb (fun c => bool_decide (is_Some (core_store h !! c))) cs.

(** The key that [ToSql] looks up: the selected engine, or ["to_sql"]. *)
Definition effective_engine (m : SelectManager) : value :=
  default (GoString "to_sql") (engine m).

(** The empty core and the statement that [nodes.SelectStatement] builds. *)
Definition fresh_core (relation : loc) : SelectCoreNode :=
  {| Relation := relation;
     Source := {| Left := relation; Right := [] |};
     Projections := []; Wheres := []; Groups := []; Having := None |}.

Definition fresh_statement (core : loc) : SelectStatementNode :=
  {| Cores := [core]; Orders := []; Limit := None; Offset := None;
     Combinator := None |}.

(** The relation behind a table reference that [InnerJoin] and [OuterJoin]
    recognise: an accessor or a relation pointer. *)
Definition table_relation (table : value) : option loc :=
  match table with
  | AccessorVal r => Some r
  | RelationPtr r => Some r
  | _ => None
  end.

(** The store after one join on relation [r] has been appended to the core
    [c] at [Context m]: one new join node at a fresh address, and its pointer
    (tagged by [ptr]) at the end of the join list. *)
Definition join_appended (ptr : loc -> value) (r : loc)
    (m : SelectManager) (c : SelectCoreNode) (h : Heap) : Heap :=
  let j := fresh (dom (join_store h)) in
  with_cores
    (<[Context m :=
         set_Source (set_Right (Right (Source c) ++ [ptr j]) (Source c)) c]>
       (core_store h))
    (with_joins (<[j := {| JoinLeft := r; JoinRight := None |}]> (join_store h))
       h).

(** ** Sample objects for the examples *)

(** A small renderer that reads the projections of the first core; the
    visitors of the repository are not among its sources. *)
Definition sample_projection (v : value) : string :=
  match v with
  | AttributeNode StarNode _ => "*"
  | LiteralNode (GoString s) => s
  | _ => "?"
  end.

Definition sample_accept (h : Heap) (tree : loc) : string * option string :=
  match statement_store h !! tree with
  | Some t =>
      match Cores t with
      | c :: _ =>
          match core_store h !! c with
          | Some core =>
              (String.append "SELECT "
                 (String.concat ", " (map sample_projection (Projections core))),
               None)
          | None => ("", Some "core")
          end
      | [] => ("", Some "cores")
      end
  | None => ("", Some "statement")
  end.

Definition sample_visitor : Visitor := {| Accept := sample_accept |}.

(** A registry with the generic renderer under its default key. *)
Definition sample_registry (key : value) : option Visitor :=
  if decide (key = GoString "to_sql") then Some sample_visitor else None.

(** A registry that lacks the default key. *)
Definition postgres_registry (key : value) : option Visitor :=
  if decide (key = GoString "postgres") then Some sample_visitor else None.

(** [Selection(Table("users").Relation())]. *)
Definition users_builder : M loc :=
  users <- codex.Table "users";;
  relation <- managers.Accessor_Relation users;;
  managers.Selection relation.

Definition heap_after {A} (c : M A) (h : Heap) : Heap :=
  match c h with
  | Returns _ h' => h'
  | Panics => h
  end.

(** The store after building the [users] builder; the builder, its tree, its
    core and its relation all sit at the first address of their maps. *)
Definition users_heap : Heap := heap_after users_builder empty_heap.

Definition users_manager : SelectManager :=
  {| Tree := 1; Context := 1; engine := None |}.

(** The [users] builder after [InnerJoin(users_relation)]. *)
Definition joined_heap : Heap :=
  heap_after (s <- users_builder;; managers.InnerJoin s (RelationPtr 1))
    empty_heap.

Definition joined_core : SelectCoreNode :=
  set_Source {| Left := 1; Right := [InnerJoinPtr 1] |} (fresh_core 1).

(** Two builders, on [users] and on [posts]. *)
Definition posts_builder : M loc :=
  posts <- codex.Table "posts";;
  relation <- managers.Accessor_Relation posts;;
  managers.Selection relation.

Definition two_builders_heap : Heap :=
  heap_after (users_builder;;; posts_builder) empty_heap.

Definition posts_manager : SelectManager :=
  {| Tree := 2; Context := 2; engine := None |}.

(** ** Chains of builder calls *)

(** One call on a builder, with its arguments. *)
Inductive call : Type :=
| CallProject (projections : list value)
| CallWhere (expr : value)
| CallOffset (skip : Z)
| CallLimit (take : Z)
| CallInnerJoin (table : value)
| CallOuterJoin (table : value)
| CallOn (expr : value)
| CallOrder (expr : value)
| CallGroup (groupings : list value)
| CallHaving (expr : value)
| CallUnion (manager : loc)
| CallIntersect (manager : loc)
| CallExcept (manager : loc)
| CallEngine (engine : value)
| CallToSql.

(** The call on the builder [self]; every method but [ToSql] returns the
    builder, and after [ToSql] the caller goes on with the builder it has. *)
Definition run_call (VISITORS : value -> option Visitor)
    (self : loc) (c : call) : M loc :=
  match c with
  | CallProject projections => managers.Project self projections
  | CallWhere expr => managers.Where self expr
  | CallOffset skip => managers.Offset self skip
  | CallLimit take => managers.Limit self take
  | CallInnerJoin table => managers.InnerJoin self table
  | CallOuterJoin table => managers.OuterJoin self table
  | CallOn expr => managers.On self expr
  | CallOrder expr => managers.Order self expr
  | CallGroup groupings => managers.Group self groupings
  | CallHaving expr => managers.Having self expr
  | CallUnion manager => managers.Union self manager
  | CallIntersect manager => managers.Intersect self manager
  | CallExcept manager => managers.Except self manager
  | CallEngine engine => managers.Engine VISITORS self engine
  | CallToSql => managers.ToSql VISITORS self;;; ret self
  end.

(** A chain [self.c1(..).c2(..)...]: each call on what the one before it
    returned. *)
Fixpoint run_calls (VISITORS : value -> option Visitor)
    (self : loc) (cs : list call) : M loc :=
  match cs with
  | [] => ret self
  | c :: cs' => s <- run_call VISITORS self c;; run_calls VISITORS s cs'
  end.

(** A join pointer of a join list is allocated; other entries do not
    matter. *)
Definition join_allocated (h : Heap) (v : value) : bool :=
  match v with
  | InnerJoinPtr j => bool_decide (is_Some (join_store h !! j))
  | OuterJoinPtr j => bool_decide (is_Some (join_store h !! j))
  | _ => true
  end.

(** The state of a builder that [Selection] made and the methods have
    worked on: the manager, its tree and all cores of the tree are
    allocated, the current core is one of the tree's cores, the join
    pointers of the current core are allocated, and the engine that [ToSql]
    will look up has a visitor. *)
Definition builder_ok (VISITORS : value -> option Visitor)
    (h : Heap) (self : loc) : bool :=
  match manager_store h !! self with
  | Some m =>
      match statement_store h !! Tree m, core_store h !! Context m with
      | Some t, Some c =>
          cores_allocated h (Cores t)
          && bool_decide (Context m ∈ Cores t)
          && forallb (join_allocated h) (Right (Source c))
          && bool_decide (is_Some (VISITORS (effective_engine m)))
      | _, _ => false
      end
  | None => false
  end.

(** What a call asks of its argument: the other builder of a set operation
    is dereferenced, and the key of [Engine] is hashed. *)
Definition call_ok (h : Heap) (c : call) : bool :=
  match c with
  | CallUnion b => bool_decide (is_Some (manager_store h !! b))
  | CallIntersect b => bool_decide (is_Some (manager_store h !! b))
  | CallExcept b => bool_decide (is_Some (manager_store h !! b))
  | CallEngine key => hashable key
  | _ => true
  end.

(** The calls that work on the current core and its joins, and the calls
    that work on the statement. *)
Definition core_level (c : call) : bool :=
  match c with
  | CallProject _ | CallWhere _ | CallInnerJoin _ | CallOuterJoin _
  | CallOn _ | CallGroup _ | CallHaving _ => true
  | _ => false
  end.

Definition statement_level (c : call) : bool :=
  match c with
  | CallOffset _ | CallLimit _ | CallOrder _
  | CallUnion _ | CallIntersect _ | CallExcept _ => true
  | _ => false
  end.

(** What a computation leaves of the store when it returns. *)
Definition map_outcome {A} (f : Heap -> Heap) (o : outcome A) : outcome A :=
  match o with
  | Returns a h => Returns a (f h)
  | Panics => Panics
  end.

(** A computation that neither reads nor writes the statements: run on a
    store with other statements, it does the same and leaves those. *)
Definition keeps_statements {A} (c : M A) : Prop :=
  forall h ss,
    c (with_statements ss h) = map_outcome (with_statements ss) (c h).

(** A computation that neither reads nor writes the cores and the joins. *)
Definition keeps_cores_joins {A} (c : M A) : Prop :=
  forall h cs js,
    c (with_cores cs (with_joins js h)) =
    map_outcome (fun h' => with_cores cs (with_joins js h')) (c h).

(** A computation that writes at most the cores and the joins. *)
Definition writes_cores_joins {A} (c : M A) : Prop :=
  forall h a h1,
    c h = Returns a h1 ->
    h1 = with_cores (core_store h1) (with_joins (join_store h1) h).

(** A computation that writes at most the statements. *)
Definition writes_statements {A} (c : M A) : Prop :=
  forall h a h1,
    c h = Returns a h1 -> h1 = with_statements (statement_store h1) h.

(** A computation that returns [r] whenever it returns. *)
Definition returns_only {A} (r : A) (c : M A) : Prop :=
  forall h a h1, c h = Returns a h1 -> a = r.

(** ** Package [librarian]: result rows and projections ([statement.go]) *)

Module librarian.

(** The values that the result code tells apart by their dynamic type, plus
    the pointer to an [interface{}] variable that a scan buffer holds.  Times
    and floats are carried as they are; no code here looks into them. *)
Inductive dyn : Type :=
| DNil
| DInt64 (n : Z)
| DTime (t : Z)
| DFloat64 (bits : Z)
| DBool (b : bool)
| DBytes (s : string)
| DString (s : string)
| DOther (tag : nat)
| DPtr (target : dyn).

(** The type switch of [generateResultMap] on the scanned value. *)
Definition convert (x : dyn) : dyn :=
  match x with
  | DInt64 _ => x
  | DTime _ => x
  | DFloat64 _ => x
  | DBool _ => x
  | DBytes s => DString s
  | _ => DNil
  end.

(** The loop of [generateResultMap] from index [i] on: the entry must be a
    pointer to an [interface{}] (the type assertion panics otherwise), the
    slot receives the converted value, and the column name at the same index
    (an index out of range panics) is bound to it.  [None] is a panic. *)
Fixpoint result_loop (c : list string) (i : nat) (p : list dyn)
    (done : list dyn) (r : gmap string dyn)
    : option (gmap string dyn * list dyn) :=
  match p with
  | [] => Some (r, done)
  | v :: p' =>
      match v with
      | DPtr x =>
          let y := convert x in
          match c !! i with
          | Some name => result_loop c (S i) p' (done ++ [y]) (<[name := y]> r)
          | None => None
          end
      | _ => None
      end
  end.

(** [generateResultMap(c, p)]: the result map, and the slice [p] as the loop
    leaves it. *)
Definition generateResultMap (c : list string) (p : list dyn)
    : option (gmap string dyn * list dyn) :=
  result_loop c 0 p [] ∅.

(** [generateResultsBuffer(l)]: [make] panics on a negative length and on a
    length above [max_len], the largest length for which [make] returns a
    slice of [interface{}] on the platform, which the sources do not fix;
    every slot receives the address of a new nil [interface{}] variable. *)
Definition generateResultsBuffer (max_len : Z) (l : Z) : option (list dyn) :=
  if ((l <? 0) || (max_len <? l))%Z then None
  else
    let p := replicate (Z.to_nat l) DNil in
    Some (foldl (fun p i => <[i := DPtr DNil]> p) p (seq 0 (length p))).



Section statements.

(** The type [table] is not among the sources; the statement only carries
    its reference. *)
Variable table : Type.

Record SelectStatement := {
  a : string -> string;
  projections : list string;
  reference : table;
  filters : list string;
  joins : list string;
  session : option loc;
  limit : Z
}.



End statements.

End librarian.

(** * Properties *)

(** ** The store and the computation steps *)

Lemma with_cores_id h : with_cores (core_store h) h = h.
Proof. by destruct h. Qed.

Lemma bind_returns {A B} (c : M A) (k : A -> M B) h a h' :
  c h = Returns a h' -> bind c k h = k a h'.
Proof. unfold bind. by intros ->. Qed.

Lemma deref_returns {A} (sel : Heap -> gmap loc A) p h a :
  sel h !! p = Some a -> deref sel p h = Returns a h.
Proof. unfold deref. by intros ->. Qed.

Lemma store_returns {A} (sel : Heap -> gmap loc A) upd p (a b : A) h :
  sel h !! p = Some b ->
  store sel upd p a h = Returns tt (upd (<[p := a]> (sel h)) h).
Proof. unfold store. by intros ->. Qed.

Lemma alloc_fresh {A} (m : gmap loc A) : m !! fresh (dom m) = None.
Proof. apply not_elem_of_dom, is_fresh. Qed.

(** Unfolding of the computation steps. *)
Ltac go_unfold :=
  unfold bind, deref, store, alloc, ret, panic; simpl.

(** One step of a computation whose pointer is known to be allocated. *)
Ltac go_step :=
  first
    [ erewrite bind_returns; [| by (apply deref_returns; eassumption) ]
    | erewrite bind_returns; [| by (eapply store_returns; eassumption) ]
    | erewrite bind_returns; [| reflexivity ] ].

(** ** The default projection *)

Lemma star_default_idemp c : star_default (star_default c) = star_default c.
Proof.
  unfold star_default. destruct (Projections c) as [|p ps] eqn:E; simpl.
  - reflexivity.
  - by rewrite E.
Qed.

Lemma star_default_nonempty c : Projections c <> [] -> star_default c = c.
Proof. unfold star_default. by destruct (Projections c). Qed.

Lemma star_default_empty c :
  Projections c = [] ->
  star_default c = set_Projections [AttributeNode StarNode (Relation c)] c.
Proof. unfold star_default. by intros ->. Qed.

Lemma cores_allocated_Forall h cs :
  cores_allocated h cs = true <->
  Forall (fun c => is_Some (core_store h !! c)) cs.
Proof.
  unfold cores_allocated. rewrite forallb_forall, Forall_forall.
  split; intros H c Hc.
  - apply list_elem_of_In in Hc. apply H in Hc.
    by apply bool_decide_eq_true in Hc.
  - apply bool_decide_eq_true. apply H. by apply list_elem_of_In.
Qed.

Lemma default_projections_spec cs h :
  Forall (fun c => is_Some (core_store h !! c)) cs ->
  exists s,
    managers.default_projections cs h = Returns tt (with_cores s h) /\
    forall c, s !! c = if decide (c ∈ cs)
                       then star_default <$> core_store h !! c
                       else core_store h !! c.
Proof.
  revert h. induction cs as [|x cs IH]; intros h Hall.
  - exists (core_store h). split.
    + unfold managers.default_projections. simpl. unfold ret.
      by rewrite with_cores_id.
    + intros c. rewrite decide_False; [done | apply not_elem_of_nil].
  - apply Forall_cons in Hall as [[cx Hx] Hall].
    set (h1 := with_cores (<[x := star_default cx]> (core_store h)) h).
    assert (Hstep : bind (deref core_store x) (fun c =>
              if (length (Projections c) =? 0)%nat
              then store core_store with_cores x
                     (set_Projections
                        (Projections c ++
                           [nodes.Attribute nodes.Star (Relation c)]) c)
              else ret tt) h = Returns tt h1).
    { go_step. unfold h1, star_default.
      destruct (length (Projections cx) =? 0)%nat.
      - by erewrite store_returns.
      - unfold ret. by rewrite insert_id, with_cores_id. }
    destruct (IH h1) as (s & Hrun & Hs).
    { eapply Forall_impl; [exact Hall |]. intros c [cc Hc]. unfold h1; simpl.
      rewrite lookup_insert. case_decide; eauto. }
    exists s. split.
    + unfold managers.default_projections in *. simpl.
      by rewrite (bind_returns _ _ _ _ _ Hstep), Hrun.
    + intros c. rewrite Hs. unfold h1; simpl. rewrite lookup_insert.
      destruct (decide (x = c)) as [->|Hne].
      * rewrite (decide_True (P := c ∈ c :: cs)) by left.
        rewrite Hx. simpl. case_decide; [by rewrite star_default_idemp | done].
      * destruct (decide (c ∈ cs)) as [Hin|Hnin].
        -- rewrite decide_True; [done | by right].
        -- rewrite decide_False; [done |].
           rewrite elem_of_cons. intros [->|Hin]; [by apply Hne | by apply Hnin].
Qed.

(** ** Projections and store equality *)

Lemma set_Projections_same c : set_Projections (Projections c) c = c.
Proof. by destruct c. Qed.

Lemma Project_returns xs : forall h self m c,
  manager_store h !! self = Some m ->
  core_store h !! Context m = Some c ->
  managers.Project self xs h =
  Returns self
    (with_cores
       (<[Context m :=
            set_Projections
              (Projections c ++ map managers.literal_of_string xs) c]>
          (core_store h))
       h).
Proof.
  unfold managers.Project.
  induction xs as [|x xs IH]; intros h self m c Hm Hc.
  - simpl. rewrite app_nil_r, set_Projections_same, insert_id by done.
    by rewrite with_cores_id.
  - simpl.
    set (c1 := set_Projections
                 (Projections c ++ [managers.literal_of_string x]) c).
    set (h1 := with_cores (<[Context m := c1]> (core_store h)) h).
    assert (Hm1 : manager_store h1 !! self = Some m) by exact Hm.
    assert (Hc1 : core_store h1 !! Context m = Some c1)
      by apply lookup_insert_eq.
    specialize (IH h1 self m c1 Hm1 Hc1).
    revert IH. go_unfold. rewrite Hm; simpl. rewrite Hc; simpl.
    rewrite Hc; simpl. fold c1. fold h1.
    destruct (for_range xs _ h1) as [[] h2|]; [| discriminate].
    intros [= ->]. unfold h1. simpl.
    by rewrite insert_insert_eq, <- app_assoc.
Qed.

Lemma heap_eq h1 h2 :
  relation_store h1 = relation_store h2 ->
  join_store h1 = join_store h2 ->
  core_store h1 = core_store h2 ->
  statement_store h1 = statement_store h2 ->
  manager_store h1 = manager_store h2 ->
  h1 = h2.
Proof. destruct h1, h2; simpl; by intros -> -> -> -> ->. Qed.

(** ** Rendering *)

Section rendering.

Variable VISITORS : value -> option Visitor.

(** The store that [ToSql] leaves and hands to the visitor, and the result it
    returns, for a builder whose pointers are allocated and whose effective
    engine is registered. *)
Lemma ToSql_run h self m t v :
  manager_store h !! self = Some m ->
  statement_store h !! Tree m = Some t ->
  cores_allocated h (Cores t) = true ->
  VISITORS (effective_engine m) = Some v ->
  exists s,
    let h' := with_managers
                (<[self := set_engine (Some (effective_engine m)) m]>
                   (manager_store h))
                (with_cores s h) in
    managers.ToSql VISITORS self h = Returns (Accept v h' (Tree m)) h' /\
    forall c, s !! c = if decide (c ∈ Cores t)
                       then star_default <$> core_store h !! c
                       else core_store h !! c.
Proof.
  intros Hm Ht Hall Hv. apply cores_allocated_Forall in Hall.
  destruct (default_projections_spec _ _ Hall) as (s & Hrun & Hs).
  exists s. split; [| exact Hs].
  unfold managers.ToSql. do 2 go_step.
  rewrite (bind_returns _ _ _ _ _ Hrun).
  assert (Hm1 : manager_store (with_cores s h) !! self = Some m) by done.
  go_step.
  unfold effective_engine in *. destruct (engine m) as [k|] eqn:Ek; simpl in *.
  - go_step. go_step. rewrite Ek. simpl. rewrite Hv.
    replace (set_engine (Some k) m) with m by (destruct m; simpl in *; by subst).
    rewrite insert_id by done. by destruct h.
  - go_step.
    erewrite bind_returns; [| apply deref_returns; simpl; apply lookup_insert_eq ].
    simpl. by rewrite Hv.
Qed.

(** The same, field by field. *)
Lemma ToSql_returns h self m t v :
  manager_store h !! self = Some m ->
  statement_store h !! Tree m = Some t ->
  cores_allocated h (Cores t) = true ->
  VISITORS (effective_engine m) = Some v ->
  exists h',
    managers.ToSql VISITORS self h = Returns (Accept v h' (Tree m)) h' /\
    relation_store h' = relation_store h /\
    join_store h' = join_store h /\
    statement_store h' = statement_store h /\
    manager_store h' =
      <[self := set_engine (Some (effective_engine m)) m]> (manager_store h) /\
    forall c, core_store h' !! c =
              if decide (c ∈ Cores t)
              then star_default <$> core_store h !! c
              else core_store h !! c.
Proof.
  intros Hm Ht Hall Hv.
  destruct (ToSql_run h self m t v Hm Ht Hall Hv) as (s & Hrun & Hs).
  eexists. split; [exact Hrun |]. by repeat split.
Qed.

(** [Engine] with a key that can be hashed and that the registry does not
    hold returns the builder and leaves the store as it is. *)
Lemma Engine_unregistered self key h :
  hashable key = true ->
  VISITORS key = None -> managers.Engine VISITORS self key h = Returns self h.
Proof. unfold managers.Engine. by intros -> ->. Qed.

(** [Engine] with a key that cannot be hashed panics. *)
Lemma Engine_unhashable self key h :
  hashable key = false ->
  VISITORS key = None -> managers.Engine VISITORS self key h = Panics.
Proof. unfold managers.Engine. by intros -> ->. Qed.

(** [ToSql] on a builder whose effective engine key has no entry in the
    registry panics: the lookup yields the nil visitor and [Accept] is
    called on it. *)
Lemma ToSql_unregistered_panics h self m t :
  manager_store h !! self = Some m ->
  statement_store h !! Tree m = Some t ->
  cores_allocated h (Cores t) = true ->
  VISITORS (effective_engine m) = None ->
  managers.ToSql VISITORS self h = Panics.
Proof.
  intros Hm Ht Hall Hv. apply cores_allocated_Forall in Hall.
  destruct (default_projections_spec _ _ Hall) as (s & Hrun & Hs).
  unfold managers.ToSql. do 2 go_step.
  rewrite (bind_returns _ _ _ _ _ Hrun).
  assert (Hm1 : manager_store (with_cores s h) !! self = Some m) by done.
  go_step.
  unfold effective_engine in *. destruct (engine m) as [k|] eqn:Ek; simpl in *.
  - go_step. go_step. rewrite Ek. simpl. by rewrite Hv.
  - go_step.
    erewrite bind_returns; [| apply deref_returns; simpl; apply lookup_insert_eq ].
    simpl. by rewrite Hv.
Qed.

(** What [ToSql] does to the cores of [Tree.Cores]. *)
Lemma ToSql_projections h self m t v :
  manager_store h !! self = Some m ->
  statement_store h !! Tree m = Some t ->
  cores_allocated h (Cores t) = true ->
  VISITORS (effective_engine m) = Some v ->
  exists h',
    managers.ToSql VISITORS self h = Returns (Accept v h' (Tree m)) h' /\
    statement_store h' = statement_store h /\
    forall core c,
      core ∈ Cores t ->
      core_store h !! core = Some c ->
      core_store h' !! core =
      Some (match Projections c with
            | [] => set_Projections
                      [nodes.Attribute nodes.Star (Relation c)] c
            | _ :: _ => c
            end).
Proof.
  intros Hm Ht Hall Hv.
  destruct (ToSql_returns h self m t v Hm Ht Hall Hv)
    as (h' & Hrun & _ & _ & Hst & _ & Hs).
  exists h'. repeat split; [exact Hrun | exact Hst |].
  intros core c Hin Hc. rewrite Hs, decide_True, Hc by done. simpl.
  f_equal. unfold star_default. by destruct (Projections c).
Qed.

End rendering.

(** ** Construction *)

Lemma Selection_returns relation h :
  let core := fresh (dom (core_store h)) in
  let tree := fresh (dom (statement_store h)) in
  let self := fresh (dom (manager_store h)) in
  managers.Selection relation h =
  Returns self
    (with_managers
       (<[self := {| Tree := tree; Context := core; engine := None |}]>
          (manager_store h))
       (with_statements
          (<[tree := fresh_statement core]> (statement_store h))
          (with_cores (<[core := fresh_core relation]> (core_store h)) h))).
Proof.
  intros core tree self.
  unfold managers.Selection, nodes.SelectStatement, nodes.SelectCore.
  unfold bind at 1. unfold bind at 1. unfold alloc at 2. unfold alloc at 1.
  simpl. fold core. fold tree.
  unfold bind. unfold deref. simpl. rewrite lookup_insert_eq. simpl.
  reflexivity.
Qed.

(** ** Joins and combinators *)

Lemma InnerJoin_returns h self m c table r :
  manager_store h !! self = Some m ->
  core_store h !! Context m = Some c ->
  table_relation table = Some r ->
  managers.InnerJoin self table h =
  Returns self (join_appended InnerJoinPtr r m c h).
Proof.
  intros Hm Hc Hr.
  destruct table; simpl in Hr; try discriminate; injection Hr as ->;
    unfold managers.InnerJoin, managers.append_join; go_unfold;
    rewrite Hm; simpl; rewrite Hc; simpl; rewrite Hc; reflexivity.
Qed.

Lemma OuterJoin_returns h self m c table r :
  manager_store h !! self = Some m ->
  core_store h !! Context m = Some c ->
  table_relation table = Some r ->
  managers.OuterJoin self table h =
  Returns self (join_appended OuterJoinPtr r m c h).
Proof.
  intros Hm Hc Hr.
  destruct table; simpl in Hr; try discriminate; injection Hr as ->;
    unfold managers.OuterJoin, managers.append_join; go_unfold;
    rewrite Hm; simpl; rewrite Hc; simpl; rewrite Hc; reflexivity.
Qed.

Lemma join_unrecognised self table h :
  table_relation table = None ->
  managers.InnerJoin self table h = Returns self h /\
  managers.OuterJoin self table h = Returns self h.
Proof. by destruct table. Qed.

Lemma On_join h self m c j jn expr :
  manager_store h !! self = Some m ->
  core_store h !! Context m = Some c ->
  last (Right (Source c)) = Some (InnerJoinPtr j) \/
  last (Right (Source c)) = Some (OuterJoinPtr j) ->
  join_store h !! j = Some jn ->
  managers.On self expr h =
  Returns self
    (with_joins (<[j := set_JoinRight (Some (nodes.On expr)) jn]> (join_store h))
       h).
Proof.
  intros Hm Hc Hlast Hj. unfold managers.On, managers.assign_join_Right.
  go_unfold. rewrite Hm; simpl. rewrite Hc; simpl.
  destruct (Right (Source c)) as [|x l] eqn:E.
  { simpl in Hlast. by destruct Hlast. }
  destruct Hlast as [-> | ->]; simpl; rewrite Hj; simpl; by rewrite Hj.
Qed.

Lemma On_noop h self m c expr :
  manager_store h !! self = Some m ->
  core_store h !! Context m = Some c ->
  (forall j, last (Right (Source c)) <> Some (InnerJoinPtr j)) ->
  (forall j, last (Right (Source c)) <> Some (OuterJoinPtr j)) ->
  managers.On self expr h = Returns self h.
Proof.
  intros Hm Hc Hin Hout. unfold managers.On.
  go_unfold. rewrite Hm; simpl. rewrite Hc; simpl.
  destruct (Right (Source c)) as [|x l] eqn:E; [reflexivity |].
  destruct (last (x :: l)) as [[]|] eqn:El; try reflexivity.
  - by destruct (Hin j).
  - by destruct (Hout j).
Qed.

Lemma combine_returns mk h a b ma mb ta :
  manager_store h !! a = Some ma ->
  manager_store h !! b = Some mb ->
  statement_store h !! Tree ma = Some ta ->
  managers.combine mk a b h =
  Returns a
    (with_statements
       (<[Tree ma := set_Combinator (Some (mk (Tree ma) (Tree mb))) ta]>
          (statement_store h))
       h).
Proof.
  intros Ha Hb Ht. unfold managers.combine. go_unfold.
  rewrite Ha; simpl. rewrite Hb; simpl. rewrite Ht; simpl. by rewrite Ht.
Qed.

(** ** Rendering twice *)

Section rendering_again.

Variable VISITORS : value -> option Visitor.

(** The store that the first [ToSql] leaves is one on which [ToSql] writes
    nothing: the second call returns the same result and the same store. *)
Lemma ToSql_settles h self m t v :
  manager_store h !! self = Some m ->
  statement_store h !! Tree m = Some t ->
  cores_allocated h (Cores t) = true ->
  VISITORS (effective_engine m) = Some v ->
  exists h',
    managers.ToSql VISITORS self h = Returns (Accept v h' (Tree m)) h' /\
    managers.ToSql VISITORS self h' = Returns (Accept v h' (Tree m)) h'.
Proof.
  intros Hm Ht Hall Hv.
  destruct (ToSql_returns VISITORS h self m t v Hm Ht Hall Hv)
    as (h' & Hrun & Hrel & Hjoin & Hst & Hmgr & Hcores).
  exists h'. split; [exact Hrun |].
  set (m' := set_engine (Some (effective_engine m)) m) in *.
  assert (Hm' : manager_store h' !! self = Some m')
    by (rewrite Hmgr; apply lookup_insert_eq).
  assert (Ht' : statement_store h' !! Tree m' = Some t) by (by rewrite Hst).
  assert (Hall' : cores_allocated h' (Cores t) = true).
  { apply cores_allocated_Forall. apply cores_allocated_Forall in Hall.
    rewrite Forall_forall in Hall |- *. intros c Hc.
    rewrite Hcores, decide_True by done.
    destruct (Hall c Hc) as [x ->]. by eexists. }
  destruct (ToSql_returns VISITORS h' self m' t v Hm' Ht' Hall' Hv)
    as (h'' & Hrun' & Hrel' & Hjoin' & Hst' & Hmgr' & Hcores').
  assert (E : h'' = h').
  { apply heap_eq; try done.
    - apply map_eq. intros c. rewrite Hcores', Hcores.
      destruct (decide (c ∈ Cores t)); [| done].
      destruct (core_store h !! c); simpl; [| done].
      by rewrite star_default_idemp.
    - rewrite Hmgr', Hmgr. by rewrite insert_insert_eq. }
  rewrite E in Hrun'. exact Hrun'.
Qed.

End rendering_again.

(** [Engine] with a key that has an entry stores the key. *)
Lemma Engine_registered VISITORS h self m key v :
  manager_store h !! self = Some m ->
  VISITORS key = Some v ->
  managers.Engine VISITORS self key h =
  Returns self
    (with_managers (<[self := set_engine (Some key) m]> (manager_store h)) h).
Proof.
  intros Hm Hv. unfold managers.Engine. rewrite Hv. go_unfold.
  rewrite Hm; simpl. by rewrite Hm.
Qed.

(** * Claims *)

(** C1. For a builder whose pointers are allocated and whose effective engine
    is registered, [ToSql] returns what the visitor renders from the store in
    which every core of [Tree.Cores] with empty projections has received the
    single projection [Attribute(Star, core.Relation)], and every core with
    projections is as it was; in particular the builder that [Selection]
    creates, with no [Project] call, is rendered from a core whose
    projections are exactly the star attribute of its relation. *)
Theorem ToSql_default_projection (VISITORS : value -> option Visitor) :
  (forall h self m t v,
     manager_store h !! self = Some m ->
     statement_store h !! Tree m = Some t ->
     cores_allocated h (Cores t) = true ->
     VISITORS (effective_engine m) = Some v ->
     exists h',
       managers.ToSql VISITORS self h = Returns (Accept v h' (Tree m)) h' /\
       forall core c,
         core ∈ Cores t ->
         core_store h !! core = Some c ->
         core_store h' !! core =
           Some {| Relation := Relation c;
                   Source := Source c;
                   Projections :=
                     match Projections c with
                     | [] => [AttributeNode StarNode (Relation c)]
                     | _ :: _ => Projections c
                     end;
                   Wheres := Wheres c;
                   Groups := Groups c;
                   Having := Having c |} /\
         Projections <$> core_store h' !! core =
           Some (match Projections c with
                 | [] => [AttributeNode StarNode (Relation c)]
                 | _ :: _ => Projections c
                 end) /\
         (Projections c <> [] -> core_store h' !! core = Some c)) /\
  (forall h relation v,
     VISITORS (GoString "to_sql") = Some v ->
     exists self tree core h1 h2,
       managers.Selection relation h = Returns self h1 /\
       manager_store h1 !! self =
         Some {| Tree := tree; Context := core; engine := None |} /\
       Projections <$> core_store h1 !! core = Some [] /\
       managers.ToSql VISITORS self h1 = Returns (Accept v h2 tree) h2 /\
       statement_store h2 !! tree =
         Some {| Cores := [core]; Orders := []; Limit := None; Offset := None;
                 Combinator := None |} /\
       core_store h2 !! core =
         Some {| Relation := relation;
                 Source := {| Left := relation; Right := [] |};
                 Projections := [AttributeNode StarNode relation];
                 Wheres := []; Groups := []; Having := None |} /\
       Projections <$> core_store h2 !! core =
         Some [AttributeNode StarNode relation]).
Proof.
  assert (Hgen : forall h self m t v,
     manager_store h !! self = Some m ->
     statement_store h !! Tree m = Some t ->
     cores_allocated h (Cores t) = true ->
     VISITORS (effective_engine m) = Some v ->
     exists h',
       managers.ToSql VISITORS self h = Returns (Accept v h' (Tree m)) h' /\
       statement_store h' = statement_store h /\
       forall core c,
         core ∈ Cores t ->
         core_store h !! core = Some c ->
         core_store h' !! core =
           Some {| Relation := Relation c;
                   Source := Source c;
                   Projections :=
                     match Projections c with
                     | [] => [AttributeNode StarNode (Relation c)]
                     | _ :: _ => Projections c
                     end;
                   Wheres := Wheres c;
                   Groups := Groups c;
                   Having := Having c |}).
  { intros h self m t v Hm Ht Hall Hv.
    destruct (ToSql_returns VISITORS h self m t v Hm Ht Hall Hv)
      as (h' & Hrun & _ & _ & Hst & _ & Hs).
    exists h'. split; [exact Hrun |]. split; [exact Hst |].
    intros core c Hin Hc. rewrite Hs, decide_True, Hc by done. simpl.
    f_equal. unfold star_default. destruct c as [rel src [|p ps] w g hv]; done. }
  split.
  { intros h self m t v Hm Ht Hall Hv.
    destruct (Hgen h self m t v Hm Ht Hall Hv) as (h' & Hrun & _ & Hs).
    exists h'. split; [exact Hrun |].
    intros core c Hin Hc. pose proof (Hs core c Hin Hc) as Hcore.
    split; [exact Hcore |]. split.
    - by rewrite Hcore.
    - intros Hne. rewrite Hcore. f_equal.
      destruct c as [rel src [|p ps] w g hv]; done. }
  intros h relation v Hv.
  pose proof (Selection_returns relation h) as Hsel. simpl in Hsel.
  set (core := fresh (dom (core_store h))) in *.
  set (tree := fresh (dom (statement_store h))) in *.
  set (self := fresh (dom (manager_store h))) in *.
  match type of Hsel with _ = Returns _ ?x => set (h1 := x) in * end.
  assert (Hm : manager_store h1 !! self =
               Some {| Tree := tree; Context := core; engine := None |})
    by apply lookup_insert_eq.
  assert (Ht : statement_store h1 !! tree = Some (fresh_statement core))
    by apply lookup_insert_eq.
  assert (Hc : core_store h1 !! core = Some (fresh_core relation))
    by apply lookup_insert_eq.
  destruct (Hgen h1 self _ _ v Hm Ht) as (h2 & Hrun & Hst & Hcores).
  { apply cores_allocated_Forall. by apply Forall_singleton. }
  { exact Hv. }
  pose proof (Hcores core _ (list_elem_of_here _ _) Hc) as Hcore.
  simpl in Hcore.
  exists self, tree, core, h1, h2.
  split; [exact Hsel |]. split; [exact Hm |]. split; [by rewrite Hc |].
  split; [exact Hrun |]. split; [by rewrite Hst |].
  split; [exact Hcore |]. by rewrite Hcore.
Qed.

Lemma ToSql_default_projection_witness :
  exists h',
    managers.ToSql sample_registry 1 users_heap =
      Returns (Accept sample_visitor h' 1) h' /\
    Projections <$> core_store users_heap !! 1%positive = Some [] /\
    Projections <$> core_store h' !! 1%positive =
      Some [AttributeNode StarNode 1].
Proof.
  destruct (proj1 (ToSql_default_projection sample_registry)
              users_heap 1%positive users_manager (fresh_statement 1)
              sample_visitor)
    as (h' & Hrun & Hcores); [reflexivity | reflexivity | reflexivity
                             | reflexivity |].
  exists h'. split; [exact Hrun |]. split; [reflexivity |].
  destruct (Hcores 1%positive (fresh_core 1)) as (_ & Hproj & _);
    [constructor | reflexivity |].
  exact Hproj.
Defined.

(** C2. [On(expr)] assigns [On(expr)] to the right side of the join node
    behind the last pointer of the current core's join list and touches
    nothing else; it returns with the store unchanged when the list is empty
    or its last entry is no inner or outer join pointer; and after
    [InnerJoin(T1).InnerJoin(T2).On(expr)] the list ends with two distinct new
    joins, the first on T1 with right side nil, the second on T2 with right
    side [On(expr)]. *)
Theorem On_sets_last_join :
  (forall h self m c j jn expr,
     manager_store h !! self = Some m ->
     core_store h !! Context m = Some c ->
     last (Right (Source c)) = Some (InnerJoinPtr j) \/
     last (Right (Source c)) = Some (OuterJoinPtr j) ->
     join_store h !! j = Some jn ->
     managers.On self expr h =
     Returns self
       (with_joins
          (<[j := {| JoinLeft := JoinLeft jn;
                     JoinRight := Some (nodes.On expr) |}]> (join_store h))
          h)) /\
  (forall h self m c expr,
     manager_store h !! self = Some m ->
     core_store h !! Context m = Some c ->
     Right (Source c) = [] \/
     (forall j, last (Right (Source c)) <> Some (InnerJoinPtr j) /\
                last (Right (Source c)) <> Some (OuterJoinPtr j)) ->
     managers.On self expr h = Returns self h) /\
  (forall h self m c t1 t2 r1 r2 expr,
     manager_store h !! self = Some m ->
     core_store h !! Context m = Some c ->
     table_relation t1 = Some r1 ->
     table_relation t2 = Some r2 ->
     exists j1 j2 h',
       (s1 <- managers.InnerJoin self t1;;
        s2 <- managers.InnerJoin s1 t2;;
        managers.On s2 expr) h = Returns self h' /\
       j1 <> j2 /\
       join_store h !! j1 = None /\
       join_store h !! j2 = None /\
       (Right <$> (Source <$> core_store h' !! Context m)) =
         Some (Right (Source c) ++ [InnerJoinPtr j1; InnerJoinPtr j2]) /\
       join_store h' !! j1 = Some {| JoinLeft := r1; JoinRight := None |} /\
       join_store h' !! j2 =
         Some {| JoinLeft := r2; JoinRight := Some (nodes.On expr) |} /\
       (forall j, j <> j1 -> j <> j2 -> join_store h' !! j = join_store h !! j)).
Proof.
  split; [| split].
  - intros h self m c j jn expr Hm Hc Hlast Hj.
    exact (On_join h self m c j jn expr Hm Hc Hlast Hj).
  - intros h self m c expr Hm Hc Hcase.
    apply (On_noop h self m c expr Hm Hc).
    + intros j. destruct Hcase as [-> | H]; [done | apply H].
    + intros j. destruct Hcase as [-> | H]; [done | apply H].
  - intros h self m c t1 t2 r1 r2 expr Hm Hc Hr1 Hr2.
    set (j1 := fresh (dom (join_store h))).
    set (h1 := join_appended InnerJoinPtr r1 m c h).
    set (c1 := set_Source
                 (set_Right (Right (Source c) ++ [InnerJoinPtr j1]) (Source c))
                 c).
    set (j2 := fresh (dom (join_store h1))).
    set (h2 := join_appended InnerJoinPtr r2 m c1 h1).
    set (c2 := set_Source
                 (set_Right (Right (Source c1) ++ [InnerJoinPtr j2]) (Source c1))
                 c1).
    assert (Hm1 : manager_store h1 !! self = Some m) by exact Hm.
    assert (Hc1 : core_store h1 !! Context m = Some c1)
      by apply lookup_insert_eq.
    assert (Hm2 : manager_store h2 !! self = Some m) by exact Hm.
    assert (Hc2 : core_store h2 !! Context m = Some c2)
      by apply lookup_insert_eq.
    assert (Hf1 : join_store h !! j1 = None) by apply alloc_fresh.
    assert (Hf2 : join_store h1 !! j2 = None) by apply alloc_fresh.
    assert (Hne : j1 <> j2).
    { intros E. rewrite <- E in Hf2. unfold h1, join_appended in Hf2.
      simpl in Hf2. fold j1 in Hf2. by rewrite lookup_insert_eq in Hf2. }
    assert (Hne' : j2 <> j1) by (intros E; by apply Hne).
    assert (Hj2 : join_store h2 !! j2 =
                  Some {| JoinLeft := r2; JoinRight := None |})
      by apply lookup_insert_eq.
    exists j1, j2. eexists. split.
    { rewrite (bind_returns _ _ _ _ _
                 (InnerJoin_returns h self m c t1 r1 Hm Hc Hr1)).
      rewrite (bind_returns _ _ _ _ _
                 (InnerJoin_returns h1 self m c1 t2 r2 Hm1 Hc1 Hr2)).
      eapply (On_join h2 self m c2 j2 _ expr Hm2 Hc2); [| exact Hj2].
      left. unfold c2. simpl. apply last_snoc. }
    split; [exact Hne |]. split; [exact Hf1 |]. split.
    { unfold h1, join_appended in Hf2. simpl in Hf2. fold j1 in Hf2.
      by rewrite lookup_insert_ne in Hf2. }
    split.
    { change (core_store (with_joins _ h2)) with (core_store h2).
      rewrite Hc2. simpl. by rewrite <- app_assoc. }
    split.
    { simpl. fold j1. fold h1. fold j2.
      rewrite lookup_insert_ne by exact Hne'.
      rewrite lookup_insert_ne by exact Hne'.
      apply lookup_insert_eq. }
    split.
    { simpl. fold j1. fold h1. fold j2. apply lookup_insert_eq. }
    intros j Hj1 Hj2'. simpl. fold j1. fold h1. fold j2.
    assert (Hx : j2 <> j) by (intros E; by apply Hj2').
    assert (Hy : j1 <> j) by (intros E; by apply Hj1).
    rewrite lookup_insert_ne by exact Hx.
    rewrite lookup_insert_ne by exact Hx.
    by rewrite lookup_insert_ne by exact Hy.
Qed.

Lemma On_sets_last_join_witness :
  managers.On 1 (GoInt 7) joined_heap =
    Returns 1%positive
      (with_joins
         (<[1%positive :=
              {| JoinLeft := 1; JoinRight := Some (OnNode (GoInt 7)) |}]>
            (join_store joined_heap))
         joined_heap) /\
  managers.On 1 (GoInt 7) users_heap = Returns 1%positive users_heap /\
  exists j1 j2 h',
    (s1 <- managers.InnerJoin 1 (RelationPtr 1);;
     s2 <- managers.InnerJoin s1 (AccessorVal 1);;
     managers.On s2 (GoInt 7)) users_heap = Returns 1%positive h' /\
    j1 <> j2 /\
    join_store h' !! j1 = Some {| JoinLeft := 1; JoinRight := None |} /\
    join_store h' !! j2 =
      Some {| JoinLeft := 1; JoinRight := Some (OnNode (GoInt 7)) |}.
Proof.
  destruct On_sets_last_join as (Hset & Hnoop & Hlast).
  split; [| split].
  - apply (Hset joined_heap 1%positive users_manager joined_core 1%positive
             {| JoinLeft := 1; JoinRight := None |} (GoInt 7));
      [reflexivity | reflexivity | left; reflexivity | reflexivity].
  - apply (Hnoop users_heap 1%positive users_manager (fresh_core 1) (GoInt 7));
      [reflexivity | reflexivity | left; reflexivity].
  - destruct (Hlast users_heap 1%positive users_manager (fresh_core 1)
                (RelationPtr 1) (AccessorVal 1) 1%positive 1%positive (GoInt 7))
      as (j1 & j2 & h' & Hrun & Hne & _ & _ & _ & H1 & H2 & _);
      [reflexivity | reflexivity | reflexivity | reflexivity |].
    exists j1, j2, h'. repeat split; assumption.
Defined.

(** C3, as the code has it. [ToSql] writes to the builder state in two
    places only: every core of [Tree.Cores] with empty projections receives
    the star attribute of its relation, and a builder without a selected
    engine has the key ["to_sql"] stored as its engine.  Relations, joins and
    statements, the cores outside [Tree.Cores], the cores that have
    projections, the other builders and the [Tree] and [Context] of this one
    are as before; and when an engine is selected and every core of
    [Tree.Cores] has projections, the store after the call is the store
    before it. *)
Theorem ToSql_writes_only_defaults
    (VISITORS : value -> option Visitor) h self m t v :
  manager_store h !! self = Some m ->
  statement_store h !! Tree m = Some t ->
  cores_allocated h (Cores t) = true ->
  VISITORS (effective_engine m) = Some v ->
  exists h',
    managers.ToSql VISITORS self h = Returns (Accept v h' (Tree m)) h' /\
    relation_store h' = relation_store h /\
    join_store h' = join_store h /\
    statement_store h' = statement_store h /\
    (forall core, core ∉ Cores t ->
       core_store h' !! core = core_store h !! core) /\
    (forall core c, core_store h !! core = Some c -> Projections c <> [] ->
       core_store h' !! core = Some c) /\
    (forall core c,
       core ∈ Cores t -> core_store h !! core = Some c -> Projections c = [] ->
       core_store h' !! core =
       Some (set_Projections [nodes.Attribute nodes.Star (Relation c)] c) /\
       Projections <$> core_store h' !! core =
       Some [AttributeNode StarNode (Relation c)]) /\
    (forall p, p <> self -> manager_store h' !! p = manager_store h !! p) /\
    manager_store h' !! self =
      Some {| Tree := Tree m; Context := Context m;
              engine := Some (effective_engine m) |} /\
    (engine m <> None ->
     (forall core c,
        core ∈ Cores t -> core_store h !! core = Some c ->
        Projections c <> []) ->
     h' = h).
Proof.
  intros Hm Ht Hall Hv.
  destruct (ToSql_returns VISITORS h self m t v Hm Ht Hall Hv)
    as (h' & Hrun & Hrel & Hjoin & Hst & Hmgr & Hcores).
  exists h'. split; [exact Hrun |].
  split; [exact Hrel |]. split; [exact Hjoin |]. split; [exact Hst |].
  split; [| split; [| split; [| split; [| split]]]].
  - intros core Hnin. by rewrite Hcores, decide_False.
  - intros core c Hc Hne. rewrite Hcores, Hc. simpl.
    rewrite star_default_nonempty by done. by case_decide.
  - intros core c Hin Hc Hnil. rewrite Hcores, decide_True, Hc by done.
    simpl. by rewrite star_default_empty.
  - intros p Hp. rewrite Hmgr. by rewrite lookup_insert_ne.
  - rewrite Hmgr. apply lookup_insert_eq.
  - intros Heng Hne. apply heap_eq; try done.
    + apply map_eq. intros core. rewrite Hcores.
      destruct (decide (core ∈ Cores t)) as [Hin|]; [| done].
      destruct (core_store h !! core) as [c|] eqn:Hc; [| done].
      simpl. by rewrite (star_default_nonempty c (Hne core c Hin Hc)).
    + rewrite Hmgr. apply insert_id. rewrite Hm. f_equal.
      unfold effective_engine. destruct m as [tr cx [k|]]; simpl in *; done.
Qed.

Lemma ToSql_writes_only_defaults_witness :
  exists h',
    managers.ToSql sample_registry 1 users_heap =
      Returns (Accept sample_visitor h' 1) h' /\
    statement_store h' = statement_store users_heap /\
    manager_store h' !! 1%positive =
      Some {| Tree := 1; Context := 1; engine := Some (GoString "to_sql") |}.
Proof.
  destruct (ToSql_writes_only_defaults sample_registry users_heap 1%positive
              users_manager (fresh_statement 1) sample_visitor)
    as (h' & Hrun & _ & _ & Hst & _ & _ & _ & _ & Hm & _);
    [reflexivity | reflexivity | reflexivity | reflexivity |].
  exists h'. repeat split; assumption.
Defined.

(** C3, as the spec states it, fails on the builder fresh from [Selection]:
    the call returns, and afterwards the projections of the core and the
    engine of the builder are no longer what they were. *)
Lemma ToSql_changes_builder_state :
  let h := users_heap in
  let h' := heap_after (managers.ToSql sample_registry 1) h in
  managers.ToSql sample_registry 1 h = Returns ("SELECT *", None) h' /\
  Projections <$> core_store h !! 1%positive = Some [] /\
  Projections <$> core_store h' !! 1%positive =
    Some [AttributeNode StarNode 1] /\
  engine <$> manager_store h !! 1%positive = Some None /\
  engine <$> manager_store h' !! 1%positive = Some (Some (GoString "to_sql")) /\
  h' <> h.
Proof.
  repeat split; try (vm_compute; reflexivity).
  intros E.
  apply (f_equal (fun x => engine <$> manager_store x !! 1%positive)) in E.
  vm_compute in E. discriminate E.
Qed.

(** C4. For a builder whose pointers are allocated and whose effective engine
    is registered, [ToSql] returns, and a second [ToSql] on the store that
    the first one left returns the same string and the same error, and
    leaves that store as it is. *)
Theorem ToSql_twice_same_result
    (VISITORS : value -> option Visitor) h self m t v :
  manager_store h !! self = Some m ->
  statement_store h !! Tree m = Some t ->
  cores_allocated h (Cores t) = true ->
  VISITORS (effective_engine m) = Some v ->
  exists sql err h',
    managers.ToSql VISITORS self h = Returns (sql, err) h' /\
    managers.ToSql VISITORS self h' = Returns (sql, err) h'.
Proof.
  intros Hm Ht Hall Hv.
  destruct (ToSql_settles VISITORS h self m t v Hm Ht Hall Hv)
    as (h' & Hfirst & Hsecond).
  destruct (Accept v h' (Tree m)) as [sql err].
  by exists sql, err, h'.
Qed.

Lemma ToSql_twice_same_result_witness :
  exists sql err h',
    managers.ToSql sample_registry 1 users_heap = Returns (sql, err) h' /\
    managers.ToSql sample_registry 1 h' = Returns (sql, err) h'.
Proof.
  apply (ToSql_twice_same_result sample_registry users_heap 1%positive
           users_manager (fresh_statement 1) sample_visitor);
    reflexivity.
Defined.




(** C6. For a builder whose current core is allocated, [InnerJoin(table)] and
    [OuterJoin(table)] with an accessor or a relation pointer allocate one
    join node at a fresh address, on the relation of the table and with right
    side nil, and append its pointer to the join list of the current core,
    leaving the rest of the store as it was; for any other argument they
    return the builder with the store unchanged. *)
Theorem joins_append_or_ignore :
  (forall h self m c table r,
     manager_store h !! self = Some m ->
     core_store h !! Context m = Some c ->
     table = AccessorVal r \/ table = RelationPtr r ->
     let j := fresh (dom (join_store h)) in
     let appended (ptr : loc -> value) (h' : Heap) :=
       join_store h' =
         <[j := {| JoinLeft := r; JoinRight := None |}]> (join_store h) /\
       join_store h' !! j = Some {| JoinLeft := r; JoinRight := None |} /\
       core_store h' =
         <[Context m :=
             {| Relation := Relation c;
                Source := {| Left := Left (Source c);
                             Right := Right (Source c) ++ [ptr j] |};
                Projections := Projections c;
                Wheres := Wheres c;
                Groups := Groups c;
                Having := Having c |}]> (core_store h) /\
       Right <$> (Source <$> core_store h' !! Context m) =
         Some (Right (Source c) ++ [ptr j]) /\
       statement_store h' = statement_store h /\
       manager_store h' = manager_store h /\
       relation_store h' = relation_store h in
     join_store h !! j = None /\
     (exists h',
        managers.InnerJoin self table h = Returns self h' /\
        appended InnerJoinPtr h') /\
     (exists h',
        managers.OuterJoin self table h = Returns self h' /\
        appended OuterJoinPtr h')) /\
  (forall h self table,
     (forall r, table <> AccessorVal r /\ table <> RelationPtr r) ->
     managers.InnerJoin self table h = Returns self h /\
     managers.OuterJoin self table h = Returns self h).
Proof.
  split.
  - intros h self m c table r Hm Hc Htable j appended.
    assert (Hr : table_relation table = Some r)
      by (destruct Htable as [-> | ->]; reflexivity).
    assert (Happ : forall ptr, appended ptr (join_appended ptr r m c h)).
    { intros ptr. unfold appended, join_appended. simpl. fold j.
      split; [reflexivity |]. split; [apply lookup_insert_eq |].
      split; [reflexivity |]. split; [by rewrite lookup_insert_eq |].
      done. }
    split; [apply alloc_fresh |]. split.
    + exists (join_appended InnerJoinPtr r m c h).
      split; [exact (InnerJoin_returns h self m c table r Hm Hc Hr) |].
      apply Happ.
    + exists (join_appended OuterJoinPtr r m c h).
      split; [exact (OuterJoin_returns h self m c table r Hm Hc Hr) |].
      apply Happ.
  - intros h self table Hother. apply join_unrecognised.
    destruct table; try reflexivity.
    + by destruct (Hother r) as [_ ?].
    + by destruct (Hother bound) as [? _].
Qed.

Lemma joins_append_or_ignore_witness :
  (exists h',
     managers.InnerJoin 1 (RelationPtr 1) users_heap = Returns 1%positive h' /\
     Right <$> (Source <$> core_store users_heap !! 1%positive) = Some [] /\
     Right <$> (Source <$> core_store h' !! 1%positive) =
       Some [InnerJoinPtr 1] /\
     join_store users_heap !! 1%positive = None /\
     join_store h' !! 1%positive =
       Some {| JoinLeft := 1; JoinRight := None |}) /\
  managers.OuterJoin 1 (GoString "users") users_heap =
    Returns 1%positive users_heap.
Proof.
  destruct joins_append_or_ignore as (Happend & Hignore).
  split.
  - destruct (Happend users_heap 1%positive users_manager (fresh_core 1)
                (RelationPtr 1) 1%positive)
      as (Hfresh & (h' & Hinner & _ & Hjoin & _ & Hlist & _) & _);
      [reflexivity | reflexivity | right; reflexivity |].
    exists h'. split; [exact Hinner |]. split; [reflexivity |].
    split; [exact Hlist |]. split; [exact Hfresh | exact Hjoin].
  - apply (Hignore users_heap 1%positive (GoString "users")).
    intros r. split; discriminate.
Defined.

(** C7. For builders [a] and [b] (possibly the same), [a.Union(b)], and
    likewise [Intersect] and [Except], assigns to the [Combinator] field of
    the statement at [a.Tree] the set-operation node that holds the two
    pointers [a.Tree] and [b.Tree] themselves; no statement is allocated, the
    statements at other addresses, the cores, joins, relations and both
    builders are as before. *)
Theorem combinators_by_reference h a b ma mb ta :
  manager_store h !! a = Some ma ->
  manager_store h !! b = Some mb ->
  statement_store h !! Tree ma = Some ta ->
  let combined node :=
    with_statements
      (<[Tree ma :=
           {| Cores := Cores ta; Orders := Orders ta; Limit := Limit ta;
              Offset := Offset ta;
              Combinator := Some (node (Tree ma) (Tree mb)) |}]>
         (statement_store h))
      h in
  (managers.Union a b h = Returns a (combined UnionNode) /\
   managers.Intersect a b h = Returns a (combined IntersectNode) /\
   managers.Except a b h = Returns a (combined ExceptNode)) /\
  forall node,
    dom (statement_store (combined node)) = dom (statement_store h) /\
    (forall p, p <> Tree ma ->
       statement_store (combined node) !! p = statement_store h !! p) /\
    manager_store (combined node) = manager_store h /\
    core_store (combined node) = core_store h /\
    join_store (combined node) = join_store h /\
    relation_store (combined node) = relation_store h.
Proof.
  intros Ha Hb Ht combined. split.
  - repeat split.
    + exact (combine_returns nodes.Union h a b ma mb ta Ha Hb Ht).
    + exact (combine_returns nodes.Intersect h a b ma mb ta Ha Hb Ht).
    + exact (combine_returns nodes.Except h a b ma mb ta Ha Hb Ht).
  - intros node. repeat split.
    + simpl. apply dom_insert_lookup_L. by eexists.
    + intros p Hp. simpl. by rewrite lookup_insert_ne.
Qed.

Lemma combinators_by_reference_witness :
  managers.Union 1 2 two_builders_heap =
    Returns 1%positive
      (with_statements
         (<[1%positive := set_Combinator (Some (UnionNode 1 2))
                            (fresh_statement 1)]>
            (statement_store two_builders_heap))
         two_builders_heap).
Proof.
  apply (combinators_by_reference two_builders_heap 1%positive 2%positive
           users_manager posts_manager (fresh_statement 1));
    reflexivity.
Defined.

(** C8, as the code has it. [Table(name)] allocates one relation named
    [name] and returns the accessor bound to it; it creates no statement, no
    core and no builder.  [Selection(relation)] is what creates the builder:
    a new statement whose core list is exactly one new core on [relation],
    empty otherwise, and a new manager whose [Tree] is that statement and
    whose [Context] is that core. *)
Theorem Table_creates_relation_Selection_creates_statement :
  (forall name h,
     exists relation,
       relation_store h !! relation = None /\
       codex.Table name h =
       Returns (AccessorVal relation)
         (with_relations (<[relation := {| Name := name |}]> (relation_store h))
            h)) /\
  (forall relation h,
     exists self tree core h',
       managers.Selection relation h = Returns self h' /\
       manager_store h !! self = None /\
       statement_store h !! tree = None /\
       core_store h !! core = None /\
       manager_store h' !! self =
         Some {| Tree := tree; Context := core; engine := None |} /\
       statement_store h' !! tree =
         Some {| Cores := [core]; Orders := []; Limit := None; Offset := None;
                 Combinator := None |} /\
       core_store h' !! core =
         Some {| Relation := relation;
                 Source := {| Left := relation; Right := [] |};
                 Projections := []; Wheres := []; Groups := [];
                 Having := None |}).
Proof.
  split.
  - intros name h. exists (fresh (dom (relation_store h))). split.
    + apply alloc_fresh.
    + reflexivity.
  - intros relation h.
    pose proof (Selection_returns relation h) as Hsel. simpl in Hsel.
    do 3 eexists. eexists. split; [exact Hsel |].
    repeat split; try apply alloc_fresh; apply lookup_insert_eq.
Qed.

(** C8, as the spec states it, fails: [Table("users")] on the empty store
    returns the accessor and leaves a store that holds the relation and no
    statement, no core and no builder. *)
Lemma Table_creates_no_statement :
  let h' := heap_after (codex.Table "users") empty_heap in
  codex.Table "users" empty_heap = Returns (AccessorVal 1) h' /\
  relation_store h' = {[ 1%positive := {| Name := "users" |} ]} /\
  statement_store h' = ∅ /\
  core_store h' = ∅ /\
  manager_store h' = ∅.
Proof. repeat (split; [reflexivity |]). reflexivity. Qed.

(** C9. The accessor that [Table(name)] returns is bound to the relation that
    [Table] created; called with a string [s] it returns
    [Attribute(Column(s), relation)], called with any other value [n] it
    returns [Attribute(n, relation)]; in both cases it returns (it never
    panics) and leaves the store as it found it, so that a second call with
    the same argument returns an equal value. *)
Theorem accessor_builds_attribute name h :
  exists relation h',
    codex.Table name h = Returns (AccessorVal relation) h' /\
    relation_store h' !! relation = Some {| Name := name |} /\
    (forall s h1,
       codex.call (AccessorVal relation) (GoString s) h1 =
       Returns (nodes.Attribute (nodes.Column (GoString s)) relation) h1) /\
    (forall n h1,
       is_string n = false ->
       codex.call (AccessorVal relation) n h1 =
       Returns (nodes.Attribute n relation) h1) /\
    (forall x h1,
       exists a,
         (a1 <- codex.call (AccessorVal relation) x;;
          a2 <- codex.call (AccessorVal relation) x;;
          ret (a1, a2)) h1 = Returns (a, a) h1).
Proof.
  do 2 eexists. split; [reflexivity |]. repeat split.
  - apply lookup_insert_eq.
  - intros n h1 Hn. simpl. by rewrite Hn.
  - intros x h1. unfold codex.call, bind, ret.
    destruct (is_string x); by eexists.
Qed.

Lemma accessor_builds_attribute_witness :
  exists relation h',
    codex.Table "users" empty_heap = Returns (AccessorVal relation) h' /\
    codex.call (AccessorVal relation) StarNode h' =
      Returns (AttributeNode StarNode relation) h'.
Proof.
  destruct (accessor_builds_attribute "users" empty_heap)
    as (relation & h' & Htable & _ & _ & Hnode & _).
  exists relation, h'. split; [exact Htable |].
  apply (Hnode StarNode h'). reflexivity.
Defined.

(** C10. For a builder whose current core is one of [Tree.Cores] and has no
    projection, [ToSql] leaves the star attribute of the core's relation as
    the only projection of that core; a following [Project(x)] makes the
    projections the star attribute followed by [x] (by [Literal(x)] when [x]
    is a string, as [Project] stores every string); and the next [ToSql],
    and the one after it, render from, and leave, exactly these two
    projections. *)
Theorem star_projection_stays
    (VISITORS : value -> option Visitor) h self m t c v x :
  manager_store h !! self = Some m ->
  statement_store h !! Tree m = Some t ->
  cores_allocated h (Cores t) = true ->
  VISITORS (effective_engine m) = Some v ->
  Context m ∈ Cores t ->
  core_store h !! Context m = Some c ->
  Projections c = [] ->
  let star := AttributeNode StarNode (Relation c) in
  let item := if is_string x then LiteralNode x else x in
  let core_with projections :=
    {| Relation := Relation c; Source := Source c;
       Projections := projections;
       Wheres := Wheres c; Groups := Groups c; Having := Having c |} in
  exists r1 h1 h2 h3,
    managers.ToSql VISITORS self h = Returns r1 h1 /\
    core_store h1 !! Context m = Some (core_with [star]) /\
    Projections <$> core_store h1 !! Context m = Some [star] /\
    managers.Project self [x] h1 = Returns self h2 /\
    core_store h2 !! Context m = Some (core_with [star; item]) /\
    Projections <$> core_store h2 !! Context m = Some [star; item] /\
    (is_string x = false ->
     Projections <$> core_store h2 !! Context m = Some [star; x]) /\
    managers.ToSql VISITORS self h2 = Returns (Accept v h3 (Tree m)) h3 /\
    managers.ToSql VISITORS self h3 = Returns (Accept v h3 (Tree m)) h3 /\
    core_store h3 !! Context m = Some (core_with [star; item]) /\
    Projections <$> core_store h3 !! Context m = Some [star; item].
Proof.
  intros Hm Ht Hall Hv Hin Hc Hnil star item core_with.
  destruct (ToSql_returns VISITORS h self m t v Hm Ht Hall Hv)
    as (h1 & Hrun & Hrel & Hjoin & Hst & Hmgr & Hcores).
  set (m1 := set_engine (Some (effective_engine m)) m) in *.
  set (c1 := core_with [star]).
  set (c2 := core_with [star; item]).
  assert (Hm1 : manager_store h1 !! self = Some m1)
    by (rewrite Hmgr; apply lookup_insert_eq).
  assert (Hc1 : core_store h1 !! Context m1 = Some c1).
  { simpl. rewrite Hcores, decide_True, Hc by done. simpl.
    by rewrite star_default_empty. }
  pose proof (Project_returns [x] h1 self m1 c1 Hm1 Hc1) as Hproj.
  change (set_Projections
            (Projections c1 ++ map managers.literal_of_string [x]) c1)
    with c2 in Hproj.
  match type of Hproj with _ = Returns _ ?y => set (h2 := y) in * end.
  assert (Hm2 : manager_store h2 !! self = Some m1) by exact Hm1.
  assert (Ht2 : statement_store h2 !! Tree m1 = Some t)
    by (simpl; by rewrite Hst).
  assert (Hc2 : core_store h2 !! Context m = Some c2) by apply lookup_insert_eq.
  assert (Hall2 : cores_allocated h2 (Cores t) = true).
  { apply cores_allocated_Forall. apply cores_allocated_Forall in Hall.
    rewrite Forall_forall in Hall |- *. intros k Hk. unfold h2. simpl.
    rewrite lookup_insert. case_decide; [by eexists |].
    rewrite Hcores, decide_True by done.
    destruct (Hall k Hk) as [y ->]. by eexists. }
  destruct (ToSql_returns VISITORS h2 self m1 t v Hm2 Ht2 Hall2 Hv)
    as (h3 & Hrun3 & _ & _ & _ & _ & Hcores3).
  destruct (ToSql_settles VISITORS h2 self m1 t v Hm2 Ht2 Hall2 Hv)
    as (h3' & Hrun3' & Hagain).
  assert (E : h3' = h3) by (rewrite Hrun3 in Hrun3'; by injection Hrun3').
  rewrite E in Hagain.
  assert (Hc3 : core_store h3 !! Context m = Some c2).
  { rewrite Hcores3, decide_True, Hc2 by done. simpl.
    by rewrite star_default_nonempty. }
  exists (Accept v h1 (Tree m)), h1, h2, h3.
  split; [exact Hrun |]. split; [exact Hc1 |].
  split; [exact (f_equal (fmap Projections) Hc1) |].
  split; [exact Hproj |]. split; [exact Hc2 |].
  split; [exact (f_equal (fmap Projections) Hc2) |]. split.
  { intros Hx. rewrite Hc2. simpl. unfold item. by rewrite Hx. }
  split; [exact Hrun3 |]. split; [exact Hagain |].
  split; [exact Hc3 |]. exact (f_equal (fmap Projections) Hc3).
Qed.

Lemma star_projection_stays_witness :
  exists r1 h1 h2 h3,
    managers.ToSql sample_registry 1 users_heap = Returns r1 h1 /\
    Projections <$> core_store users_heap !! 1%positive = Some [] /\
    Projections <$> core_store h1 !! 1%positive =
      Some [AttributeNode StarNode 1] /\
    managers.Project 1 [GoString "id"] h1 = Returns 1%positive h2 /\
    Projections <$> core_store h2 !! 1%positive =
      Some [AttributeNode StarNode 1; LiteralNode (GoString "id")] /\
    managers.ToSql sample_registry 1 h2 =
      Returns (Accept sample_visitor h3 1) h3 /\
    Projections <$> core_store h3 !! 1%positive =
      Some [AttributeNode StarNode 1; LiteralNode (GoString "id")].
Proof.
  destruct (star_projection_stays sample_registry users_heap 1%positive
              users_manager (fresh_statement 1) (fresh_core 1) sample_visitor
              (GoString "id"))
    as (r1 & h1 & h2 & h3 & Hrun & _ & Hp1 & Hproj & _ & Hp2 & _ & Hrun3 & _
        & _ & Hp3);
    [reflexivity | reflexivity | reflexivity | reflexivity | constructor
    | reflexivity | reflexivity |].
  exists r1, h1, h2, h3.
  split; [exact Hrun |]. split; [reflexivity |]. split; [exact Hp1 |].
  split; [exact Hproj |]. split; [exact Hp2 |]. split; [exact Hrun3 |].
  exact Hp3.
Defined.

(** * Further properties of the builder *)

(** ** What each method leaves *)

Lemma Where_returns h self m c expr :
  manager_store h !! self = Some m ->
  core_store h !! Context m = Some c ->
  managers.Where self expr h =
  Returns self
    (with_cores
       (<[Context m :=
            set_Wheres
              (Wheres c ++ [nodes.Grouping (managers.literal_of_string expr)])
              c]>
          (core_store h))
       h).
Proof.
  intros Hm Hc. unfold managers.Where. go_unfold.
  rewrite Hm; simpl. rewrite Hc; simpl. by rewrite Hc.
Qed.

Lemma Having_returns h self m c expr :
  manager_store h !! self = Some m ->
  core_store h !! Context m = Some c ->
  managers.Having self expr h =
  Returns self
    (with_cores
       (<[Context m :=
            set_Having
              (Some (nodes.Having (managers.literal_of_string expr))) c]>
          (core_store h))
       h).
Proof.
  intros Hm Hc. unfold managers.Having. go_unfold.
  rewrite Hm; simpl. rewrite Hc; simpl. by rewrite Hc.
Qed.

Lemma set_Groups_same c : set_Groups (Groups c) c = c.
Proof. by destruct c. Qed.

Lemma Group_returns xs : forall h self m c,
  manager_store h !! self = Some m ->
  core_store h !! Context m = Some c ->
  managers.Group self xs h =
  Returns self
    (with_cores
       (<[Context m :=
            set_Groups (Groups c ++ map managers.literal_of_string xs) c]>
          (core_store h))
       h).
Proof.
  unfold managers.Group.
  induction xs as [|x xs IH]; intros h self m c Hm Hc.
  - simpl. rewrite app_nil_r, set_Groups_same, insert_id by done.
    by rewrite with_cores_id.
  - simpl.
    set (c1 := set_Groups (Groups c ++ [managers.literal_of_string x]) c).
    set (h1 := with_cores (<[Context m := c1]> (core_store h)) h).
    assert (Hm1 : manager_store h1 !! self = Some m) by exact Hm.
    assert (Hc1 : core_store h1 !! Context m = Some c1)
      by apply lookup_insert_eq.
    specialize (IH h1 self m c1 Hm1 Hc1).
    revert IH. go_unfold. rewrite Hm; simpl. rewrite Hc; simpl.
    rewrite Hc; simpl. fold c1. fold h1.
    destruct (for_range xs _ h1) as [[] h2|]; [| discriminate].
    intros [= ->]. unfold h1. simpl.
    by rewrite insert_insert_eq, <- app_assoc.
Qed.

Lemma statement_update_returns (f : SelectStatementNode -> SelectStatementNode)
    h self m t :
  manager_store h !! self = Some m ->
  statement_store h !! Tree m = Some t ->
  (m' <- deref manager_store self;;
   t' <- deref statement_store (Tree m');;
   store statement_store with_statements (Tree m') (f t');;;
   ret self) h =
  Returns self (with_statements (<[Tree m := f t]> (statement_store h)) h).
Proof.
  intros Hm Ht. go_unfold. rewrite Hm; simpl. rewrite Ht; simpl.
  by rewrite Ht.
Qed.

Lemma Limit_returns h self m t take :
  manager_store h !! self = Some m ->
  statement_store h !! Tree m = Some t ->
  managers.Limit self take h =
  Returns self
    (with_statements
       (<[Tree m := set_Limit (Some (nodes.Limit take)) t]> (statement_store h))
       h).
Proof. apply statement_update_returns. Qed.

Lemma Offset_returns h self m t skip :
  manager_store h !! self = Some m ->
  statement_store h !! Tree m = Some t ->
  managers.Offset self skip h =
  Returns self
    (with_statements
       (<[Tree m := set_Offset (Some (nodes.Offset skip)) t]>
          (statement_store h))
       h).
Proof. apply statement_update_returns. Qed.

Lemma Order_returns h self m t expr :
  manager_store h !! self = Some m ->
  statement_store h !! Tree m = Some t ->
  managers.Order self expr h =
  Returns self
    (with_statements
       (<[Tree m :=
            set_Orders (Orders t ++ [managers.literal_of_string expr]) t]>
          (statement_store h))
       h).
Proof.
  intros Hm Ht. unfold managers.Order.
  exact (statement_update_returns
           (fun t' => set_Orders
                        (Orders t' ++ [managers.literal_of_string expr]) t')
           h self m t Hm Ht).
Qed.

(** ** Accumulating and replacing *)

(** X1. [Project] appends its arguments to the projections of the current
    core in the order given, every string as a literal node and every other
    value as it is, and changes nothing else; two calls in a row leave what
    one call with both argument lists leaves. *)
Theorem Project_accumulates h self m c xs ys :
  manager_store h !! self = Some m ->
  core_store h !! Context m = Some c ->
  let after items :=
    with_cores
      (<[Context m :=
           set_Projections
             (Projections c ++ map managers.literal_of_string items) c]>
         (core_store h))
      h in
  managers.Project self xs h = Returns self (after xs) /\
  (s <- managers.Project self xs;; managers.Project s ys) h =
    Returns self (after (xs ++ ys)) /\
  forall items,
    core_store (after items) !! Context m =
      Some {| Relation := Relation c;
              Source := Source c;
              Projections :=
                Projections c ++
                map (fun x => if is_string x then LiteralNode x else x) items;
              Wheres := Wheres c;
              Groups := Groups c;
              Having := Having c |} /\
    (forall p, p <> Context m ->
               core_store (after items) !! p = core_store h !! p) /\
    join_store (after items) = join_store h /\
    statement_store (after items) = statement_store h /\
    manager_store (after items) = manager_store h /\
    relation_store (after items) = relation_store h.
Proof.
  intros Hm Hc after. split; [| split].
  - exact (Project_returns xs h self m c Hm Hc).
  - rewrite (bind_returns _ _ _ _ _ (Project_returns xs h self m c Hm Hc)).
    erewrite Project_returns; [| exact Hm | apply lookup_insert_eq ].
    unfold after. simpl. by rewrite insert_insert_eq, map_app, app_assoc.
  - intros items. split; [apply lookup_insert_eq |].
    split; [| done]. intros p Hp. simpl. by rewrite lookup_insert_ne.
Qed.

Lemma Project_accumulates_witness :
  exists h',
    (s <- managers.Project 1 [GoString "id"; StarNode];;
     managers.Project s [GoString "email"]) users_heap =
      Returns 1%positive h' /\
    Projections <$> core_store users_heap !! 1%positive = Some [] /\
    Projections <$> core_store h' !! 1%positive =
      Some [LiteralNode (GoString "id"); StarNode;
            LiteralNode (GoString "email")].
Proof.
  destruct (Project_accumulates users_heap 1%positive users_manager
              (fresh_core 1) [GoString "id"; StarNode] [GoString "email"])
    as (_ & Hrun & Hafter); [reflexivity | reflexivity |].
  eexists. split; [exact Hrun |]. split; [reflexivity |].
  destruct (Hafter [GoString "id"; StarNode; GoString "email"]) as (Hcore & _).
  exact (f_equal (fmap Projections) Hcore).
Defined.

(** X2. [Group] appends its arguments to the groups of the current core in
    the order given, strings as literal nodes, and changes nothing else; two
    calls in a row leave what one call with both argument lists leaves. *)
Theorem Group_accumulates h self m c xs ys :
  manager_store h !! self = Some m ->
  core_store h !! Context m = Some c ->
  let after items :=
    with_cores
      (<[Context m :=
           set_Groups (Groups c ++ map managers.literal_of_string items) c]>
         (core_store h))
      h in
  managers.Group self xs h = Returns self (after xs) /\
  (s <- managers.Group self xs;; managers.Group s ys) h =
    Returns self (after (xs ++ ys)) /\
  forall items,
    core_store (after items) !! Context m =
      Some {| Relation := Relation c;
              Source := Source c;
              Projections := Projections c;
              Wheres := Wheres c;
              Groups :=
                Groups c ++
                map (fun x => if is_string x then LiteralNode x else x) items;
              Having := Having c |} /\
    (forall p, p <> Context m ->
               core_store (after items) !! p = core_store h !! p) /\
    join_store (after items) = join_store h /\
    statement_store (after items) = statement_store h /\
    manager_store (after items) = manager_store h /\
    relation_store (after items) = relation_store h.
Proof.
  intros Hm Hc after. split; [| split].
  - exact (Group_returns xs h self m c Hm Hc).
  - rewrite (bind_returns _ _ _ _ _ (Group_returns xs h self m c Hm Hc)).
    erewrite Group_returns; [| exact Hm | apply lookup_insert_eq ].
    unfold after. simpl. by rewrite insert_insert_eq, map_app, app_assoc.
  - intros items. split; [apply lookup_insert_eq |].
    split; [| done]. intros p Hp. simpl. by rewrite lookup_insert_ne.
Qed.

Lemma Group_accumulates_witness :
  exists h',
    (s <- managers.Group 1 [GoString "name"];;
     managers.Group s [GoInt 2]) users_heap = Returns 1%positive h' /\
    Groups <$> core_store users_heap !! 1%positive = Some [] /\
    Groups <$> core_store h' !! 1%positive =
      Some [LiteralNode (GoString "name"); GoInt 2].
Proof.
  destruct (Group_accumulates users_heap 1%positive users_manager
              (fresh_core 1) [GoString "name"] [GoInt 2])
    as (_ & Hrun & Hafter); [reflexivity | reflexivity |].
  eexists. split; [exact Hrun |]. split; [reflexivity |].
  destruct (Hafter [GoString "name"; GoInt 2]) as (Hcore & _).
  exact (f_equal (fmap Groups) Hcore).
Defined.

(** X3. [Where] appends one grouping node around its argument (around the
    literal node of a string argument) to the filters of the current core and
    changes nothing else; a second call appends behind the first, also when
    it repeats the same expression. *)
Theorem Where_accumulates h self m c e1 e2 :
  manager_store h !! self = Some m ->
  core_store h !! Context m = Some c ->
  let after filters :=
    with_cores
      (<[Context m := set_Wheres (Wheres c ++ filters) c]> (core_store h)) h in
  managers.Where self e1 h =
    Returns self (after [GroupingNode (managers.literal_of_string e1)]) /\
  (s <- managers.Where self e1;; managers.Where s e2) h =
    Returns self
      (after [GroupingNode (managers.literal_of_string e1);
              GroupingNode (managers.literal_of_string e2)]) /\
  managers.literal_of_string e1 = (if is_string e1 then LiteralNode e1 else e1) /\
  forall filters,
    core_store (after filters) !! Context m =
      Some {| Relation := Relation c;
              Source := Source c;
              Projections := Projections c;
              Wheres := Wheres c ++ filters;
              Groups := Groups c;
              Having := Having c |} /\
    (forall p, p <> Context m ->
               core_store (after filters) !! p = core_store h !! p) /\
    join_store (after filters) = join_store h /\
    statement_store (after filters) = statement_store h /\
    manager_store (after filters) = manager_store h /\
    relation_store (after filters) = relation_store h.
Proof.
  intros Hm Hc after. split; [| split; [| split]].
  - exact (Where_returns h self m c e1 Hm Hc).
  - rewrite (bind_returns _ _ _ _ _ (Where_returns h self m c e1 Hm Hc)).
    erewrite Where_returns; [| exact Hm | apply lookup_insert_eq ].
    unfold after. simpl. by rewrite insert_insert_eq, <- app_assoc.
  - reflexivity.
  - intros filters. split; [apply lookup_insert_eq |].
    split; [| done]. intros p Hp. simpl. by rewrite lookup_insert_ne.
Qed.

Lemma Where_accumulates_witness :
  exists h',
    (s <- managers.Where 1 (GoString "1 = 1");;
     managers.Where s (GoString "1 = 1")) users_heap =
      Returns 1%positive h' /\
    Wheres <$> core_store users_heap !! 1%positive = Some [] /\
    Wheres <$> core_store h' !! 1%positive =
      Some [GroupingNode (LiteralNode (GoString "1 = 1"));
            GroupingNode (LiteralNode (GoString "1 = 1"))].
Proof.
  destruct (Where_accumulates users_heap 1%positive users_manager
              (fresh_core 1) (GoString "1 = 1") (GoString "1 = 1"))
    as (_ & Hrun & _ & Hafter); [reflexivity | reflexivity |].
  eexists. split; [exact Hrun |]. split; [reflexivity |].
  destruct (Hafter [GroupingNode (LiteralNode (GoString "1 = 1"));
                    GroupingNode (LiteralNode (GoString "1 = 1"))])
    as (Hcore & _).
  exact (f_equal (fmap Wheres) Hcore).
Defined.

(** X4. [Limit] and [Offset] assign the statement's limit and offset, with
    any integer, zero and negative ones included; a second [Limit] (or
    [Offset]) replaces the first, and a [Limit] and an [Offset] can be given
    in either order. *)
Theorem Limit_Offset_replace h self m t a b :
  manager_store h !! self = Some m ->
  statement_store h !! Tree m = Some t ->
  managers.Limit self a h =
    Returns self
      (with_statements
         (<[Tree m := set_Limit (Some (LimitNode a)) t]> (statement_store h))
         h) /\
  managers.Offset self a h =
    Returns self
      (with_statements
         (<[Tree m := set_Offset (Some (OffsetNode a)) t]> (statement_store h))
         h) /\
  (s <- managers.Limit self a;; managers.Limit s b) h =
    managers.Limit self b h /\
  (s <- managers.Offset self a;; managers.Offset s b) h =
    managers.Offset self b h /\
  (s <- managers.Limit self a;; managers.Offset s b) h =
    (s <- managers.Offset self b;; managers.Limit s a) h /\
  (exists h',
     managers.Limit self a h = Returns self h' /\
     statement_store h' !! Tree m =
       Some {| Cores := Cores t; Orders := Orders t;
               Limit := Some (LimitNode a); Offset := Offset t;
               Combinator := Combinator t |} /\
     (forall p, p <> Tree m ->
                statement_store h' !! p = statement_store h !! p) /\
     core_store h' = core_store h /\ join_store h' = join_store h /\
     manager_store h' = manager_store h /\
     relation_store h' = relation_store h) /\
  (exists h',
     managers.Offset self a h = Returns self h' /\
     statement_store h' !! Tree m =
       Some {| Cores := Cores t; Orders := Orders t;
               Limit := Limit t; Offset := Some (OffsetNode a);
               Combinator := Combinator t |} /\
     (forall p, p <> Tree m ->
                statement_store h' !! p = statement_store h !! p) /\
     core_store h' = core_store h /\ join_store h' = join_store h /\
     manager_store h' = manager_store h /\
     relation_store h' = relation_store h) /\
  (exists h',
     (s <- managers.Limit self a;; managers.Offset s b) h = Returns self h' /\
     statement_store h' !! Tree m =
       Some {| Cores := Cores t; Orders := Orders t;
               Limit := Some (LimitNode a); Offset := Some (OffsetNode b);
               Combinator := Combinator t |}).
Proof.
  intros Hm Ht.
  pose proof (Limit_returns h self m t) as HL.
  pose proof (Offset_returns h self m t) as HO.
  split; [exact (HL a Hm Ht) |]. split; [exact (HO a Hm Ht) |].
  split; [| split; [| split; [| split; [| split]]]].
  - rewrite (bind_returns _ _ _ _ _ (HL a Hm Ht)), (HL b Hm Ht).
    erewrite Limit_returns; [| exact Hm | apply lookup_insert_eq ].
    simpl. by rewrite insert_insert_eq.
  - rewrite (bind_returns _ _ _ _ _ (HO a Hm Ht)), (HO b Hm Ht).
    erewrite Offset_returns; [| exact Hm | apply lookup_insert_eq ].
    simpl. by rewrite insert_insert_eq.
  - rewrite (bind_returns _ _ _ _ _ (HL a Hm Ht)).
    rewrite (bind_returns _ _ _ _ _ (HO b Hm Ht)).
    erewrite Offset_returns; [| exact Hm | apply lookup_insert_eq ].
    erewrite Limit_returns; [| exact Hm | apply lookup_insert_eq ].
    simpl. by rewrite !insert_insert_eq.
  - eexists. split; [exact (HL a Hm Ht) |].
    split; [apply lookup_insert_eq |]. split; [| done].
    intros p Hp. simpl. by rewrite lookup_insert_ne.
  - eexists. split; [exact (HO a Hm Ht) |].
    split; [apply lookup_insert_eq |]. split; [| done].
    intros p Hp. simpl. by rewrite lookup_insert_ne.
  - eexists. split.
    + rewrite (bind_returns _ _ _ _ _ (HL a Hm Ht)).
      erewrite Offset_returns; [| exact Hm | apply lookup_insert_eq ].
      reflexivity.
    + apply lookup_insert_eq.
Qed.

Lemma Limit_Offset_replace_witness :
  (s <- managers.Limit 1 5;; managers.Limit s (-1)) users_heap =
    managers.Limit 1 (-1) users_heap /\
  exists h',
    managers.Limit 1 (-1) users_heap = Returns 1%positive h' /\
    Limit <$> statement_store users_heap !! 1%positive = Some None /\
    Limit <$> statement_store h' !! 1%positive = Some (Some (LimitNode (-1))).
Proof.
  destruct (Limit_Offset_replace users_heap 1%positive users_manager
              (fresh_statement 1) 5%Z (-1)%Z)
    as (_ & _ & Htwice & _); [reflexivity | reflexivity |].
  destruct (Limit_Offset_replace users_heap 1%positive users_manager
              (fresh_statement 1) (-1)%Z 0%Z)
    as (_ & _ & _ & _ & _ & (h' & Hrun & Hst & _) & _);
    [reflexivity | reflexivity |].
  split; [exact Htwice |].
  exists h'. split; [exact Hrun |]. split; [reflexivity |].
  exact (f_equal (fmap Limit) Hst).
Defined.

(** X5. [Having] replaces the having clause of the current core (with the
    having node around its argument, a string argument as a literal) and
    changes nothing else: of two calls only the second one's clause is
    kept. *)
Theorem Having_replaces h self m c e1 e2 :
  manager_store h !! self = Some m ->
  core_store h !! Context m = Some c ->
  managers.Having self e2 h =
    Returns self
      (with_cores
         (<[Context m :=
              set_Having (Some (HavingNode (managers.literal_of_string e2))) c]>
            (core_store h))
         h) /\
  (s <- managers.Having self e1;; managers.Having s e2) h =
    managers.Having self e2 h /\
  exists h',
    (s <- managers.Having self e1;; managers.Having s e2) h =
      Returns self h' /\
    core_store h' !! Context m =
      Some {| Relation := Relation c;
              Source := Source c;
              Projections := Projections c;
              Wheres := Wheres c;
              Groups := Groups c;
              Having :=
                Some (HavingNode (if is_string e2 then LiteralNode e2
                                  else e2)) |} /\
    (forall p, p <> Context m -> core_store h' !! p = core_store h !! p) /\
    join_store h' = join_store h /\
    statement_store h' = statement_store h /\
    manager_store h' = manager_store h /\
    relation_store h' = relation_store h.
Proof.
  intros Hm Hc.
  assert (Htwice : (s <- managers.Having self e1;; managers.Having s e2) h =
                   managers.Having self e2 h).
  { rewrite (bind_returns _ _ _ _ _ (Having_returns h self m c e1 Hm Hc)).
    rewrite (Having_returns h self m c e2 Hm Hc).
    erewrite Having_returns; [| exact Hm | apply lookup_insert_eq ].
    simpl. by rewrite insert_insert_eq. }
  split; [exact (Having_returns h self m c e2 Hm Hc) |].
  split; [exact Htwice |].
  eexists. split; [rewrite Htwice; exact (Having_returns h self m c e2 Hm Hc) |].
  split; [apply lookup_insert_eq |]. split; [| done].
  intros p Hp. simpl. by rewrite lookup_insert_ne.
Qed.

Lemma Having_replaces_witness :
  exists h',
    (s <- managers.Having 1 (GoString "a > 1");;
     managers.Having s (GoString "b > 2")) users_heap =
      Returns 1%positive h' /\
    Having <$> core_store users_heap !! 1%positive = Some None /\
    Having <$> core_store h' !! 1%positive =
      Some (Some (HavingNode (LiteralNode (GoString "b > 2")))).
Proof.
  destruct (Having_replaces users_heap 1%positive users_manager (fresh_core 1)
              (GoString "a > 1") (GoString "b > 2"))
    as (_ & _ & h' & Hrun & Hcore & _); [reflexivity | reflexivity |].
  exists h'. split; [exact Hrun |]. split; [reflexivity |].
  exact (f_equal (fmap Having) Hcore).
Defined.

(** X6. [Order] appends its argument (a string as a literal node) to the
    orders of the statement, not of the current core, and changes nothing
    else; a second call appends behind the first. *)
Theorem Order_accumulates h self m t e1 e2 :
  manager_store h !! self = Some m ->
  statement_store h !! Tree m = Some t ->
  let after orders :=
    with_statements
      (<[Tree m := set_Orders (Orders t ++ orders) t]> (statement_store h)) h in
  managers.Order self e1 h =
    Returns self (after [managers.literal_of_string e1]) /\
  (s <- managers.Order self e1;; managers.Order s e2) h =
    Returns self
      (after [managers.literal_of_string e1; managers.literal_of_string e2]) /\
  managers.literal_of_string e1 = (if is_string e1 then LiteralNode e1 else e1) /\
  forall orders,
    statement_store (after orders) !! Tree m =
      Some {| Cores := Cores t; Orders := Orders t ++ orders;
              Limit := Limit t; Offset := Offset t;
              Combinator := Combinator t |} /\
    (forall p, p <> Tree m ->
               statement_store (after orders) !! p = statement_store h !! p) /\
    core_store (after orders) = core_store h /\
    join_store (after orders) = join_store h /\
    manager_store (after orders) = manager_store h /\
    relation_store (after orders) = relation_store h.
Proof.
  intros Hm Ht after. split; [| split; [| split]].
  - exact (Order_returns h self m t e1 Hm Ht).
  - rewrite (bind_returns _ _ _ _ _ (Order_returns h self m t e1 Hm Ht)).
    erewrite Order_returns; [| exact Hm | apply lookup_insert_eq ].
    unfold after. simpl. by rewrite insert_insert_eq, <- app_assoc.
  - reflexivity.
  - intros orders. split; [apply lookup_insert_eq |].
    split; [| done]. intros p Hp. simpl. by rewrite lookup_insert_ne.
Qed.

Lemma Order_accumulates_witness :
  exists h',
    (s <- managers.Order 1 (GoString "id");;
     managers.Order s (AttributeNode (ColumnNode (GoString "email")) 1))
      users_heap = Returns 1%positive h' /\
    Orders <$> statement_store users_heap !! 1%positive = Some [] /\
    Orders <$> statement_store h' !! 1%positive =
      Some [LiteralNode (GoString "id");
            AttributeNode (ColumnNode (GoString "email")) 1] /\
    core_store h' = core_store users_heap.
Proof.
  destruct (Order_accumulates users_heap 1%positive users_manager
              (fresh_statement 1) (GoString "id")
              (AttributeNode (ColumnNode (GoString "email")) 1))
    as (_ & Hrun & _ & Hafter); [reflexivity | reflexivity |].
  eexists. split; [exact Hrun |]. split; [reflexivity |].
  destruct (Hafter [LiteralNode (GoString "id");
                    AttributeNode (ColumnNode (GoString "email")) 1])
    as (Hst & _ & Hcores & _).
  split; [exact (f_equal (fmap Orders) Hst) | exact Hcores].
Defined.

(** ** Joins and their predicates *)

(** X7. A second [On] with no join call in between assigns to the same join
    node as the first and replaces its predicate: only the last expression
    is kept. *)
Theorem On_twice_keeps_last h self m c j jn e1 e2 :
  manager_store h !! self = Some m ->
  core_store h !! Context m = Some c ->
  last (Right (Source c)) = Some (InnerJoinPtr j) \/
  last (Right (Source c)) = Some (OuterJoinPtr j) ->
  join_store h !! j = Some jn ->
  (s <- managers.On self e1;; managers.On s e2) h = managers.On self e2 h /\
  managers.On self e2 h =
    Returns self
      (with_joins
         (<[j := {| JoinLeft := JoinLeft jn; JoinRight := Some (OnNode e2) |}]>
            (join_store h))
         h).
Proof.
  intros Hm Hc Hlast Hj.
  pose proof (On_join h self m c j jn) as Hon.
  split; [| exact (Hon e2 Hm Hc Hlast Hj)].
  rewrite (bind_returns _ _ _ _ _ (Hon e1 Hm Hc Hlast Hj)).
  rewrite (Hon e2 Hm Hc Hlast Hj).
  erewrite On_join; [| exact Hm | exact Hc | exact Hlast
                     | apply lookup_insert_eq ].
  simpl. by rewrite insert_insert_eq.
Qed.

Lemma On_twice_keeps_last_witness :
  (s <- managers.On 1 (GoInt 1);; managers.On s (GoInt 2)) joined_heap =
  managers.On 1 (GoInt 2) joined_heap.
Proof.
  apply (On_twice_keeps_last joined_heap 1%positive users_manager joined_core
           1%positive {| JoinLeft := 1; JoinRight := None |} (GoInt 1) (GoInt 2));
    [reflexivity | reflexivity | left; reflexivity | reflexivity].
Defined.

(** X8. A join call and the [On] that follows it leave one new join node on
    the table's relation with [On(expr)] as its right side, for [InnerJoin]
    and for [OuterJoin]; and when a join call with an argument that is no
    table reference stands between them, it is skipped and the predicate
    goes to the join before it. *)
Theorem On_pairs_with_last_recognised_join h self m c table r other expr :
  manager_store h !! self = Some m ->
  core_store h !! Context m = Some c ->
  table_relation table = Some r ->
  table_relation other = None ->
  let j := fresh (dom (join_store h)) in
  let paired ptr :=
    with_joins
      (<[j := {| JoinLeft := r; JoinRight := Some (OnNode expr) |}]>
         (join_store h))
      (with_cores
         (<[Context m :=
              set_Source (set_Right (Right (Source c) ++ [ptr j]) (Source c)) c]>
            (core_store h))
         h) in
  (s <- managers.InnerJoin self table;; managers.On s expr) h =
    Returns self (paired InnerJoinPtr) /\
  (s <- managers.OuterJoin self table;; managers.On s expr) h =
    Returns self (paired OuterJoinPtr) /\
  (s1 <- managers.InnerJoin self table;;
   s2 <- managers.InnerJoin s1 other;;
   managers.On s2 expr) h = Returns self (paired InnerJoinPtr) /\
  (s1 <- managers.OuterJoin self table;;
   s2 <- managers.OuterJoin s1 other;;
   managers.On s2 expr) h = Returns self (paired OuterJoinPtr).
Proof.
  intros Hm Hc Hr Hother j paired.
  pose proof (InnerJoin_returns h self m c table r Hm Hc Hr) as Hin.
  pose proof (OuterJoin_returns h self m c table r Hm Hc Hr) as Hout.
  assert (Hi : managers.On self expr (join_appended InnerJoinPtr r m c h) =
               Returns self (paired InnerJoinPtr)).
  { erewrite On_join;
      [| exact Hm | apply lookup_insert_eq
       | left; simpl; apply last_snoc | apply lookup_insert_eq ].
    unfold paired, join_appended. simpl. fold j.
    by rewrite insert_insert_eq. }
  assert (Ho : managers.On self expr (join_appended OuterJoinPtr r m c h) =
               Returns self (paired OuterJoinPtr)).
  { erewrite On_join;
      [| exact Hm | apply lookup_insert_eq
       | right; simpl; apply last_snoc | apply lookup_insert_eq ].
    unfold paired, join_appended. simpl. fold j.
    by rewrite insert_insert_eq. }
  split; [| split; [| split]].
  - by rewrite (bind_returns _ _ _ _ _ Hin).
  - by rewrite (bind_returns _ _ _ _ _ Hout).
  - rewrite (bind_returns _ _ _ _ _ Hin).
    destruct (join_unrecognised self other (join_appended InnerJoinPtr r m c h)
                Hother) as [Hskip _].
    by rewrite (bind_returns _ _ _ _ _ Hskip).
  - rewrite (bind_returns _ _ _ _ _ Hout).
    destruct (join_unrecognised self other (join_appended OuterJoinPtr r m c h)
                Hother) as [_ Hskip].
    by rewrite (bind_returns _ _ _ _ _ Hskip).
Qed.

Lemma On_pairs_with_last_recognised_join_witness :
  (s1 <- managers.OuterJoin 1 (AccessorVal 1);;
   s2 <- managers.OuterJoin s1 (GoString "posts");;
   managers.On s2 (GoInt 7)) users_heap =
  Returns 1%positive
    (with_joins
       (<[1%positive :=
            {| JoinLeft := 1; JoinRight := Some (OnNode (GoInt 7)) |}]>
          (join_store users_heap))
       (with_cores
          (<[1%positive :=
               set_Source {| Left := 1; Right := [OuterJoinPtr 1] |}
                 (fresh_core 1)]>
             (core_store users_heap))
          users_heap)).
Proof.
  apply (On_pairs_with_last_recognised_join users_heap 1%positive users_manager
           (fresh_core 1) (AccessorVal 1) 1%positive (GoString "posts")
           (GoInt 7));
    reflexivity.
Defined.

(** ** Set operations *)

(** X9. A second set operation replaces the combinator that the first one
    stored instead of nesting it: after [a.Union(b).Intersect(c)] the
    statement of [a] is what [a.Intersect(c)] alone leaves; and a builder
    combined with itself stores a node whose two operands are both its own
    tree. *)
Theorem combinator_is_replaced h a b c ma mb mc ta :
  manager_store h !! a = Some ma ->
  manager_store h !! b = Some mb ->
  manager_store h !! c = Some mc ->
  statement_store h !! Tree ma = Some ta ->
  (s <- managers.Union a b;; managers.Intersect s c) h =
    managers.Intersect a c h /\
  (s <- managers.Intersect a b;; managers.Except s c) h =
    managers.Except a c h /\
  (s <- managers.Except a b;; managers.Union s c) h =
    managers.Union a c h /\
  managers.Union a a h =
    Returns a
      (with_statements
         (<[Tree ma :=
              set_Combinator (Some (UnionNode (Tree ma) (Tree ma))) ta]>
            (statement_store h))
         h) /\
  (exists h',
     (s <- managers.Union a b;; managers.Intersect s c) h = Returns a h' /\
     statement_store h' !! Tree ma =
       Some {| Cores := Cores ta; Orders := Orders ta; Limit := Limit ta;
               Offset := Offset ta;
               Combinator := Some (IntersectNode (Tree ma) (Tree mc)) |} /\
     (forall p, p <> Tree ma ->
                statement_store h' !! p = statement_store h !! p) /\
     core_store h' = core_store h /\ join_store h' = join_store h /\
     manager_store h' = manager_store h /\
     relation_store h' = relation_store h) /\
  (exists h',
     managers.Union a a h = Returns a h' /\
     statement_store h' !! Tree ma =
       Some {| Cores := Cores ta; Orders := Orders ta; Limit := Limit ta;
               Offset := Offset ta;
               Combinator := Some (UnionNode (Tree ma) (Tree ma)) |}).
Proof.
  intros Ha Hb Hc Ht.
  assert (Hseq : forall mk1 mk2,
            (s <- managers.combine mk1 a b;; managers.combine mk2 s c) h =
            managers.combine mk2 a c h).
  { intros mk1 mk2.
    rewrite (bind_returns _ _ _ _ _
               (combine_returns mk1 h a b ma mb ta Ha Hb Ht)).
    rewrite (combine_returns mk2 h a c ma mc ta Ha Hc Ht).
    erewrite combine_returns; [| exact Ha | exact Hc | apply lookup_insert_eq ].
    simpl. by rewrite insert_insert_eq. }
  split; [apply Hseq |]. split; [apply Hseq |]. split; [apply Hseq |].
  split; [exact (combine_returns nodes.Union h a a ma ma ta Ha Ha Ht) |].
  split.
  - eexists. split.
    + unfold managers.Union, managers.Intersect. rewrite Hseq.
      exact (combine_returns nodes.Intersect h a c ma mc ta Ha Hc Ht).
    + split; [apply lookup_insert_eq |]. split; [| done].
      intros p Hp. simpl. by rewrite lookup_insert_ne.
  - eexists.
    split; [exact (combine_returns nodes.Union h a a ma ma ta Ha Ha Ht) |].
    apply lookup_insert_eq.
Qed.

Lemma combinator_is_replaced_witness :
  exists h',
    (s <- managers.Union 1 2;; managers.Intersect s 1) two_builders_heap =
      Returns 1%positive h' /\
    Combinator <$> statement_store two_builders_heap !! 1%positive =
      Some None /\
    Combinator <$> statement_store h' !! 1%positive =
      Some (Some (IntersectNode 1 1)).
Proof.
  destruct (combinator_is_replaced two_builders_heap 1%positive 2%positive
              1%positive users_manager posts_manager users_manager
              (fresh_statement 1))
    as (_ & _ & _ & _ & (h' & Hrun & Hst & _) & _);
    [reflexivity | reflexivity | reflexivity | reflexivity |].
  exists h'. split; [exact Hrun |]. split; [reflexivity |].
  exact (f_equal (fmap Combinator) Hst).
Defined.

(** ** Engines *)

(** X10. [Engine] with a registered key stores that key, whatever engine was
    selected before, and the [ToSql] that follows returns what the visitor
    registered under that key renders, leaving the key selected. *)
Theorem Engine_selects_visitor
    (VISITORS : value -> option Visitor) h self m t key v :
  manager_store h !! self = Some m ->
  statement_store h !! Tree m = Some t ->
  cores_allocated h (Cores t) = true ->
  VISITORS key = Some v ->
  exists h',
    (s <- managers.Engine VISITORS self key;; managers.ToSql VISITORS s) h =
      Returns (Accept v h' (Tree m)) h' /\
    manager_store h' !! self =
      Some {| Tree := Tree m; Context := Context m; engine := Some key |}.
Proof.
  intros Hm Ht Hall Hv.
  rewrite (bind_returns _ _ _ _ _
             (Engine_registered VISITORS h self m key v Hm Hv)).
  set (m1 := set_engine (Some key) m).
  set (h1 := with_managers (<[self := m1]> (manager_store h)) h).
  assert (Hm1 : manager_store h1 !! self = Some m1) by apply lookup_insert_eq.
  destruct (ToSql_returns VISITORS h1 self m1 t v Hm1 Ht Hall Hv)
    as (h' & Hrun & _ & _ & _ & Hmgr & _).
  exists h'. split; [exact Hrun |].
  rewrite Hmgr. apply lookup_insert_eq.
Qed.

Lemma Engine_selects_visitor_witness :
  exists h',
    (s <- managers.Engine postgres_registry 1 (GoString "postgres");;
     managers.ToSql postgres_registry s) users_heap =
      Returns (Accept sample_visitor h' 1) h' /\
    manager_store h' !! 1%positive =
      Some {| Tree := 1; Context := 1;
              engine := Some (GoString "postgres") |}.
Proof.
  apply (Engine_selects_visitor postgres_registry users_heap 1%positive
           users_manager (fresh_statement 1) (GoString "postgres")
           sample_visitor);
    reflexivity.
Defined.

(** X11. Of two [Engine] calls with registered keys the second one's key is
    kept; an [Engine] call with a key that can be hashed and is not
    registered, after one with a registered key, keeps the registered key
    and does not fall back to the default; and an [Engine] call with a key
    that cannot be hashed, such as an accessor, panics. *)
Theorem Engine_keeps_last_registered
    (VISITORS : value -> option Visitor) h self m k1 v1 k2 v2 bad :
  manager_store h !! self = Some m ->
  VISITORS k1 = Some v1 ->
  VISITORS k2 = Some v2 ->
  VISITORS bad = None ->
  let selected key :=
    with_managers
      (<[self := {| Tree := Tree m; Context := Context m;
                    engine := Some key |}]> (manager_store h))
      h in
  managers.Engine VISITORS self k1 h = Returns self (selected k1) /\
  manager_store (selected k1) !! self =
    Some {| Tree := Tree m; Context := Context m; engine := Some k1 |} /\
  (s <- managers.Engine VISITORS self k1;; managers.Engine VISITORS s k2) h =
    Returns self (selected k2) /\
  (hashable bad = true ->
   (s <- managers.Engine VISITORS self k1;; managers.Engine VISITORS s bad) h =
     Returns self (selected k1)) /\
  (hashable bad = false ->
   managers.Engine VISITORS self bad h = Panics /\
   (s <- managers.Engine VISITORS self k1;; managers.Engine VISITORS s bad) h =
     Panics).
Proof.
  intros Hm H1 H2 Hbad selected.
  pose proof (Engine_registered VISITORS h self m k1 v1 Hm H1) as E1.
  split; [exact E1 |]. split; [apply lookup_insert_eq |].
  split; [| split].
  - rewrite (bind_returns _ _ _ _ _ E1).
    erewrite Engine_registered; [| apply lookup_insert_eq | exact H2 ].
    unfold selected. simpl. by rewrite insert_insert_eq.
  - intros Hh. rewrite (bind_returns _ _ _ _ _ E1).
    by apply Engine_unregistered.
  - intros Hh. split; [by apply Engine_unhashable |].
    rewrite (bind_returns _ _ _ _ _ E1). by apply Engine_unhashable.
Qed.

Lemma Engine_keeps_last_registered_witness :
  (exists h',
     (s <- managers.Engine postgres_registry 1 (GoString "postgres");;
      managers.Engine postgres_registry s (GoString "mysql")) users_heap =
       Returns 1%positive h' /\
     engine <$> manager_store h' !! 1%positive =
       Some (Some (GoString "postgres"))) /\
  managers.Engine postgres_registry 1 (AccessorVal 1) users_heap = Panics.
Proof.
  split.
  - destruct (Engine_keeps_last_registered postgres_registry users_heap
                1%positive users_manager (GoString "postgres") sample_visitor
                (GoString "postgres") sample_visitor (GoString "mysql"))
      as (_ & Hm & _ & Hkeep & _);
      [reflexivity | reflexivity | reflexivity | reflexivity |].
    eexists. split; [apply Hkeep; reflexivity |].
    exact (f_equal (fmap engine) Hm).
  - destruct (Engine_keeps_last_registered postgres_registry users_heap
                1%positive users_manager (GoString "postgres") sample_visitor
                (GoString "postgres") sample_visitor (AccessorVal 1))
      as (_ & _ & _ & _ & Hpanic);
      [reflexivity | reflexivity | reflexivity | reflexivity |].
    apply Hpanic. reflexivity.
Defined.

(** ** The builder invariant *)

Lemma builder_ok_spec VISITORS h self :
  builder_ok VISITORS h self = true <->
  exists m t c,
    manager_store h !! self = Some m /\
    statement_store h !! Tree m = Some t /\
    core_store h !! Context m = Some c /\
    cores_allocated h (Cores t) = true /\
    Context m ∈ Cores t /\
    forallb (join_allocated h) (Right (Source c)) = true /\
    is_Some (VISITORS (effective_engine m)).
Proof.
  unfold builder_ok. split.
  - destruct (manager_store h !! self) as [m|] eqn:Em; [| done].
    destruct (statement_store h !! Tree m) as [t|] eqn:Et; [| done].
    destruct (core_store h !! Context m) as [c|] eqn:Ec; [| done].
    rewrite !andb_true_iff, !bool_decide_eq_true.
    intros [[[H1 H2] H3] H4]. exists m, t, c. auto 10.
  - intros (m & t & c & -> & -> & -> & H1 & H2 & H3 & H4).
    rewrite !andb_true_iff, !bool_decide_eq_true. auto.
Qed.

Lemma cores_allocated_mono h h' cs :
  (forall p, is_Some (core_store h !! p) -> is_Some (core_store h' !! p)) ->
  cores_allocated h cs = true -> cores_allocated h' cs = true.
Proof.
  intros Hmono. rewrite !cores_allocated_Forall.
  intros H. eapply Forall_impl; [exact H |]. intros p. apply Hmono.
Qed.

Lemma joins_allocated_mono h h' l :
  (forall p, is_Some (join_store h !! p) -> is_Some (join_store h' !! p)) ->
  forallb (join_allocated h) l = true -> forallb (join_allocated h') l = true.
Proof.
  intros Hmono. rewrite !forallb_forall. intros H v Hv. specialize (H v Hv).
  destruct v; simpl in *; try done;
    apply bool_decide_eq_true in H; apply bool_decide_eq_true; by apply Hmono.
Qed.

Lemma is_Some_insert_mono {K A} `{Countable K} (m : gmap K A) k a p :
  is_Some (m !! p) -> is_Some (<[k := a]> m !! p).
Proof. rewrite lookup_insert. case_decide; [by eexists | done]. Qed.

(** A method that rewrites the current core and keeps its join list. *)
Lemma builder_ok_core VISITORS h self m c c' :
  manager_store h !! self = Some m ->
  core_store h !! Context m = Some c ->
  Right (Source c') = Right (Source c) ->
  builder_ok VISITORS h self = true ->
  builder_ok VISITORS
    (with_cores (<[Context m := c']> (core_store h)) h) self = true.
Proof.
  intros Hm Hc Hsrc. rewrite !builder_ok_spec.
  intros (m0 & t & c0 & Hm0 & Ht & Hc0 & Hall & Hin & Hj & Hv).
  assert (m0 = m) as -> by congruence. assert (c0 = c) as -> by congruence.
  exists m, t, c'. repeat split; try done.
  - apply lookup_insert_eq.
  - revert Hall. apply cores_allocated_mono. intros p. apply is_Some_insert_mono.
  - by rewrite Hsrc.
Qed.

(** A method that rewrites the statement and keeps its core list. *)
Lemma builder_ok_statement VISITORS h self m t t' :
  manager_store h !! self = Some m ->
  statement_store h !! Tree m = Some t ->
  Cores t' = Cores t ->
  builder_ok VISITORS h self = true ->
  builder_ok VISITORS
    (with_statements (<[Tree m := t']> (statement_store h)) h) self = true.
Proof.
  intros Hm Ht Hcs. rewrite !builder_ok_spec.
  intros (m0 & t0 & c & Hm0 & Ht0 & Hc & Hall & Hin & Hj & Hv).
  assert (m0 = m) as -> by congruence. assert (t0 = t) as -> by congruence.
  exists m, t', c. repeat split; try done.
  - apply lookup_insert_eq.
  - by rewrite Hcs.
  - by rewrite Hcs.
Qed.

(** A join call with a table reference. *)
Lemma builder_ok_join VISITORS h self m c ptr r :
  (ptr = InnerJoinPtr \/ ptr = OuterJoinPtr) ->
  manager_store h !! self = Some m ->
  core_store h !! Context m = Some c ->
  builder_ok VISITORS h self = true ->
  builder_ok VISITORS (join_appended ptr r m c h) self = true.
Proof.
  intros Hptr Hm Hc. rewrite !builder_ok_spec.
  intros (m0 & t & c0 & Hm0 & Ht & Hc0 & Hall & Hin & Hj & Hv).
  assert (m0 = m) as -> by congruence. assert (c0 = c) as -> by congruence.
  eexists m, t, _. split; [exact Hm |]. split; [exact Ht |].
  split; [apply lookup_insert_eq |]. split; [| split; [exact Hin | split]].
  - revert Hall. apply cores_allocated_mono. intros p. apply is_Some_insert_mono.
  - simpl. rewrite forallb_app. apply andb_true_iff. split.
    + revert Hj. apply joins_allocated_mono. intros p.
      apply is_Some_insert_mono.
    + simpl. rewrite andb_true_r.
      destruct Hptr as [-> | ->]; simpl; apply bool_decide_eq_true;
        rewrite lookup_insert_eq; by eexists.
  - exact Hv.
Qed.

(** An assignment through an allocated join pointer. *)
Lemma builder_ok_join_assign VISITORS h self j jn :
  is_Some (join_store h !! j) ->
  builder_ok VISITORS h self = true ->
  builder_ok VISITORS (with_joins (<[j := jn]> (join_store h)) h) self = true.
Proof.
  intros Hj. rewrite !builder_ok_spec.
  intros (m & t & c & Hm & Ht & Hc & Hall & Hin & Hjs & Hv).
  exists m, t, c. repeat split; try done.
  revert Hjs. apply joins_allocated_mono. intros p. apply is_Some_insert_mono.
Qed.

Lemma last_join_allocated h l :
  forallb (join_allocated h) l = true ->
  forall j, last l = Some (InnerJoinPtr j) \/ last l = Some (OuterJoinPtr j) ->
  is_Some (join_store h !! j).
Proof.
  intros Hall j Hlast. rewrite forallb_forall in Hall.
  assert (Hin : exists v, In v l /\ (v = InnerJoinPtr j \/ v = OuterJoinPtr j)).
  { destruct Hlast as [H | H]; apply last_Some in H as [l' ->];
      eexists; (split; [apply in_or_app; right; left; reflexivity |]); auto. }
  destruct Hin as (v & Hv & [-> | ->]); specialize (Hall _ Hv); simpl in Hall;
    by apply bool_decide_eq_true in Hall.
Qed.

Section invariant.

Variable VISITORS : value -> option Visitor.

(** One call on a builder in the state [builder_ok] returns the builder in
    that state, and allocates or frees no manager. *)
Lemma run_call_ok h self c :
  builder_ok VISITORS h self = true ->
  call_ok h c = true ->
  exists h',
    run_call VISITORS self c h = Returns self h' /\
    builder_ok VISITORS h' self = true /\
    dom (manager_store h') = dom (manager_store h).
Proof.
  intros Hok Hcall.
  pose proof Hok as Hspec. apply builder_ok_spec in Hspec.
  destruct Hspec as (m & t & c0 & Hm & Ht & Hc & Hall & Hin & Hj & Hv).
  destruct c; simpl in *.
  - (* Project *)
    eexists. split; [exact (Project_returns _ h self m c0 Hm Hc) |].
    split; [| done]. by apply (builder_ok_core VISITORS h self m c0).
  - (* Where *)
    eexists. split; [exact (Where_returns h self m c0 _ Hm Hc) |].
    split; [| done]. by apply (builder_ok_core VISITORS h self m c0).
  - (* Offset *)
    eexists. split; [exact (Offset_returns h self m t _ Hm Ht) |].
    split; [| done]. by apply (builder_ok_statement VISITORS h self m t).
  - (* Limit *)
    eexists. split; [exact (Limit_returns h self m t _ Hm Ht) |].
    split; [| done]. by apply (builder_ok_statement VISITORS h self m t).
  - (* InnerJoin *)
    destruct (table_relation table) as [r|] eqn:Hr.
    + eexists. split; [exact (InnerJoin_returns h self m c0 table r Hm Hc Hr) |].
      split; [| done]. apply builder_ok_join; auto.
    + exists h. by destruct (join_unrecognised self table h Hr) as [-> _].
  - (* OuterJoin *)
    destruct (table_relation table) as [r|] eqn:Hr.
    + eexists. split; [exact (OuterJoin_returns h self m c0 table r Hm Hc Hr) |].
      split; [| done]. apply builder_ok_join; auto.
    + exists h. by destruct (join_unrecognised self table h Hr) as [_ ->].
  - (* On *)
    destruct (last (Right (Source c0))) as [v|] eqn:Hlast.
    + assert (Hcase : (exists j, v = InnerJoinPtr j \/ v = OuterJoinPtr j) \/
                      (forall j, v <> InnerJoinPtr j /\ v <> OuterJoinPtr j)).
      { destruct v; try (right; intros; split; discriminate);
          left; eexists; eauto. }
      destruct Hcase as [[j Hv'] | Hno].
      * assert (Hl : last (Right (Source c0)) = Some (InnerJoinPtr j) \/
                     last (Right (Source c0)) = Some (OuterJoinPtr j))
          by (rewrite Hlast; destruct Hv' as [-> | ->]; auto).
        destruct (last_join_allocated h _ Hj j Hl) as [jn Hjn].
        eexists. split; [exact (On_join h self m c0 j jn _ Hm Hc Hl Hjn) |].
        split; [| done]. apply builder_ok_join_assign; [by eexists | done].
      * exists h. split; [| done].
        apply (On_noop h self m c0 _ Hm Hc); intros j; rewrite Hlast;
          intros [= E]; by destruct (Hno j) as [? ?].
    + exists h. split; [| done].
      apply (On_noop h self m c0 _ Hm Hc); intros j; by rewrite Hlast.
  - (* Order *)
    eexists. split; [exact (Order_returns h self m t _ Hm Ht) |].
    split; [| done]. by apply (builder_ok_statement VISITORS h self m t).
  - (* Group *)
    eexists. split; [exact (Group_returns _ h self m c0 Hm Hc) |].
    split; [| done]. by apply (builder_ok_core VISITORS h self m c0).
  - (* Having *)
    eexists. split; [exact (Having_returns h self m c0 _ Hm Hc) |].
    split; [| done]. by apply (builder_ok_core VISITORS h self m c0).
  - (* Union *)
    apply bool_decide_eq_true in Hcall as [mb Hb].
    eexists. split; [exact (combine_returns _ h self _ m mb t Hm Hb Ht) |].
    split; [| done]. by apply (builder_ok_statement VISITORS h self m t).
  - (* Intersect *)
    apply bool_decide_eq_true in Hcall as [mb Hb].
    eexists. split; [exact (combine_returns _ h self _ m mb t Hm Hb Ht) |].
    split; [| done]. by apply (builder_ok_statement VISITORS h self m t).
  - (* Except *)
    apply bool_decide_eq_true in Hcall as [mb Hb].
    eexists. split; [exact (combine_returns _ h self _ m mb t Hm Hb Ht) |].
    split; [| done]. by apply (builder_ok_statement VISITORS h self m t).
  - (* Engine *)
    destruct (VISITORS engine0) as [v|] eqn:Hk.
    + eexists.
      split; [exact (Engine_registered VISITORS h self m _ v Hm Hk) |].
      split.
      * apply builder_ok_spec. exists (set_engine (Some engine0) m), t, c0.
        split; [apply lookup_insert_eq |].
        do 5 (split; [done |]).
        unfold effective_engine. simpl. rewrite Hk. by eexists.
      * simpl. apply dom_insert_lookup_L. by eexists.
    + exists h. split; [by apply Engine_unregistered | done].
  - (* ToSql *)
    destruct Hv as [v Hv].
    destruct (ToSql_returns VISITORS h self m t v Hm Ht Hall Hv)
      as (h' & Hrun & Hrel & Hjoin & Hst & Hmgr & Hcores).
    exists h'. split; [by rewrite (bind_returns _ _ _ _ _ Hrun) |]. split.
    + apply builder_ok_spec.
      exists (set_engine (Some (effective_engine m)) m), t, (star_default c0).
      split; [rewrite Hmgr; apply lookup_insert_eq |].
      split; [by rewrite Hst |].
      split; [simpl; by rewrite Hcores, decide_True, Hc |].
      split.
      { revert Hall. apply cores_allocated_mono. intros p [x Hx].
        rewrite Hcores, Hx. case_decide; by eexists. }
      split; [exact Hin |]. split.
      { assert (Right (Source (star_default c0)) = Right (Source c0)) as ->
          by (unfold star_default; by destruct (_ =? _)%nat).
        revert Hj. apply joins_allocated_mono. intros p. by rewrite Hjoin. }
      unfold effective_engine at 1. simpl. by eexists.
    + rewrite Hmgr. apply dom_insert_lookup_L. by eexists.
Qed.

Lemma calls_ok_dom h h' cs :
  dom (manager_store h') = dom (manager_store h) ->
  forallb (call_ok h) cs = true -> forallb (call_ok h') cs = true.
Proof.
  intros Hdom. rewrite !forallb_forall. intros H c Hc. specialize (H c Hc).
  assert (Hs : forall b, is_Some (manager_store h !! b) ->
                         is_Some (manager_store h' !! b)).
  { intros b. rewrite <- !elem_of_dom. by rewrite Hdom. }
  destruct c; simpl in *; try done;
    apply bool_decide_eq_true in H; apply bool_decide_eq_true; by apply Hs.
Qed.

End invariant.

(** X12. When the default key ["to_sql"] is registered, [Selection] returns
    a new builder in the state [builder_ok], for any relation pointer; the
    builder, its statement and its core are new, and every manager,
    statement and core that the store held before, and every builder in the
    state [builder_ok], is as before. *)
Theorem Selection_makes_ok_builder
    (VISITORS : value -> option Visitor) relation h v :
  VISITORS (GoString "to_sql") = Some v ->
  exists self h',
    managers.Selection relation h = Returns self h' /\
    builder_ok VISITORS h' self = true /\
    manager_store h !! self = None /\
    (forall p, is_Some (manager_store h !! p) ->
               manager_store h' !! p = manager_store h !! p) /\
    (forall p, is_Some (statement_store h !! p) ->
               statement_store h' !! p = statement_store h !! p) /\
    (forall p, is_Some (core_store h !! p) ->
               core_store h' !! p = core_store h !! p) /\
    join_store h' = join_store h /\
    relation_store h' = relation_store h /\
    (forall other, builder_ok VISITORS h other = true ->
                   builder_ok VISITORS h' other = true).
Proof.
  intros Hv.
  pose proof (Selection_returns relation h) as Hsel. simpl in Hsel.
  set (core := fresh (dom (core_store h))) in *.
  set (tree := fresh (dom (statement_store h))) in *.
  set (self := fresh (dom (manager_store h))) in *.
  match type of Hsel with _ = Returns _ ?x => set (h' := x) in * end.
  assert (Hfm : manager_store h !! self = None) by apply alloc_fresh.
  assert (Hft : statement_store h !! tree = None) by apply alloc_fresh.
  assert (Hfc : core_store h !! core = None) by apply alloc_fresh.
  assert (Hkm : forall p, is_Some (manager_store h !! p) ->
                          manager_store h' !! p = manager_store h !! p).
  { intros p [x Hp]. unfold h'. simpl. rewrite lookup_insert_ne; congruence. }
  assert (Hkt : forall p, is_Some (statement_store h !! p) ->
                          statement_store h' !! p = statement_store h !! p).
  { intros p [x Hp]. unfold h'. simpl. rewrite lookup_insert_ne; congruence. }
  assert (Hkc : forall p, is_Some (core_store h !! p) ->
                          core_store h' !! p = core_store h !! p).
  { intros p [x Hp]. unfold h'. simpl. rewrite lookup_insert_ne; congruence. }
  exists self, h'. split; [exact Hsel |]. split.
  { apply builder_ok_spec.
    exists {| Tree := tree; Context := core; engine := None |},
      (fresh_statement core), (fresh_core relation).
    split; [apply lookup_insert_eq |]. split; [apply lookup_insert_eq |].
    split; [apply lookup_insert_eq |]. split.
    { apply cores_allocated_Forall, Forall_singleton. simpl.
      rewrite lookup_insert_eq. by eexists. }
    split; [apply list_elem_of_here |]. split; [reflexivity |].
    unfold effective_engine. simpl. rewrite Hv. by eexists. }
  split; [exact Hfm |]. split; [exact Hkm |]. split; [exact Hkt |].
  split; [exact Hkc |]. split; [reflexivity |]. split; [reflexivity |].
  intros other. rewrite !builder_ok_spec.
  intros (m & t & c & Hm & Ht & Hc & Hall & Hin & Hj & Hve).
  exists m, t, c.
  split; [rewrite Hkm; [exact Hm | by eexists] |].
  split; [rewrite Hkt; [exact Ht | by eexists] |].
  split; [rewrite Hkc; [exact Hc | by eexists] |].
  split.
  { revert Hall. apply cores_allocated_mono. intros p Hp.
    rewrite Hkc; done. }
  split; [exact Hin |]. split; [exact Hj |]. exact Hve.
Qed.

Lemma Selection_makes_ok_builder_witness :
  exists self h',
    managers.Selection 1 users_heap = Returns self h' /\
    builder_ok sample_registry h' self = true /\
    builder_ok sample_registry h' 1 = true.
Proof.
  destruct (Selection_makes_ok_builder sample_registry 1%positive users_heap
              sample_visitor)
    as (self & h' & Hsel & Hok & _ & _ & _ & _ & _ & _ & Hothers);
    [reflexivity |].
  exists self, h'. split; [exact Hsel |]. split; [exact Hok |].
  apply Hothers. reflexivity.
Defined.

(** X13. On a builder in the state [builder_ok], a chain of builder calls of
    any length, [ToSql] among them, returns the builder and leaves it in
    that state: no call panics, provided the other builder of each set
    operation is allocated and every key given to [Engine] can be hashed;
    all other arguments are arbitrary. *)
Theorem chain_never_panics (VISITORS : value -> option Visitor) cs :
  forall h self,
    builder_ok VISITORS h self = true ->
    forallb (call_ok h) cs = true ->
    exists h',
      run_calls VISITORS self cs h = Returns self h' /\
      builder_ok VISITORS h' self = true.
Proof.
  induction cs as [|c cs IH]; intros h self Hok Hcalls.
  - by exists h.
  - simpl in Hcalls. apply andb_true_iff in Hcalls as [Hc Hcs].
    destruct (run_call_ok VISITORS h self c Hok Hc)
      as (h1 & Hrun & Hok1 & Hdom).
    destruct (IH h1 self Hok1 (calls_ok_dom h h1 cs Hdom Hcs))
      as (h' & Hrest & Hok').
    exists h'. split; [| exact Hok'].
    simpl. by rewrite (bind_returns _ _ _ _ _ Hrun).
Qed.

Lemma chain_never_panics_witness :
  exists h',
    run_calls sample_registry 1
      [CallOn (GoInt 1); CallInnerJoin (GoString "posts");
       CallOuterJoin (AccessorVal 1); CallOn (GoString "a = b");
       CallToSql; CallProject [GoString "id"]; CallUnion 1;
       CallEngine (GoString "mysql"); CallLimit (-3); CallToSql]
      users_heap = Returns 1%positive h' /\
    builder_ok sample_registry h' 1 = true.
Proof.
  apply (chain_never_panics sample_registry
           [CallOn (GoInt 1); CallInnerJoin (GoString "posts");
            CallOuterJoin (AccessorVal 1); CallOn (GoString "a = b");
            CallToSql; CallProject [GoString "id"]; CallUnion 1;
            CallEngine (GoString "mysql"); CallLimit (-3); CallToSql]
           users_heap 1%positive);
    reflexivity.
Defined.

(** ** Calls on the core and calls on the statement *)

Lemma keeps_statements_bind {A B} (c : M A) (k : A -> M B) :
  keeps_statements c -> (forall a, keeps_statements (k a)) ->
  keeps_statements (bind c k).
Proof.
  intros Hc Hk h ss. unfold bind. rewrite Hc.
  destruct (c h) as [a h1|]; simpl; [apply Hk | done].
Qed.

Lemma keeps_cores_joins_bind {A B} (c : M A) (k : A -> M B) :
  keeps_cores_joins c -> (forall a, keeps_cores_joins (k a)) ->
  keeps_cores_joins (bind c k).
Proof.
  intros Hc Hk h cs js. unfold bind. rewrite Hc.
  destruct (c h) as [a h1|]; simpl; [apply Hk | done].
Qed.

Lemma writes_cores_joins_bind {A B} (c : M A) (k : A -> M B) :
  writes_cores_joins c -> (forall a, writes_cores_joins (k a)) ->
  writes_cores_joins (bind c k).
Proof.
  intros Hc Hk h b h2. unfold bind.
  destruct (c h) as [a h1|] eqn:E; [| done]. intros Hk2.
  rewrite (Hk a h1 b h2 Hk2). rewrite (Hc h a h1 E). reflexivity.
Qed.

Lemma writes_statements_bind {A B} (c : M A) (k : A -> M B) :
  writes_statements c -> (forall a, writes_statements (k a)) ->
  writes_statements (bind c k).
Proof.
  intros Hc Hk h b h2. unfold bind.
  destruct (c h) as [a h1|] eqn:E; [| done]. intros Hk2.
  rewrite (Hk a h1 b h2 Hk2). rewrite (Hc h a h1 E). reflexivity.
Qed.

Lemma returns_only_bind {A B} (r : B) (c : M A) (k : A -> M B) :
  (forall a, returns_only r (k a)) -> returns_only r (bind c k).
Proof.
  intros Hk h b h2. unfold bind.
  destruct (c h) as [a h1|]; [apply Hk | done].
Qed.

Lemma keeps_statements_for_range {A} (xs : list A) (body : A -> M unit) :
  (forall x, keeps_statements (body x)) -> keeps_statements (for_range xs body).
Proof.
  intros Hb. induction xs as [|x xs IH]; simpl.
  - by intros h ss.
  - apply keeps_statements_bind; [apply Hb | by intros _].
Qed.

Lemma writes_cores_joins_for_range {A} (xs : list A) (body : A -> M unit) :
  (forall x, writes_cores_joins (body x)) ->
  writes_cores_joins (for_range xs body).
Proof.
  intros Hb. induction xs as [|x xs IH]; simpl.
  - intros h a h1 [= _ <-]. by destruct h.
  - apply writes_cores_joins_bind; [apply Hb | by intros _].
Qed.

(** The straight-line bodies: unfold, and follow every lookup. *)
Ltac local_crush :=
  go_unfold; intros; simplify_eq;
  repeat (case_match; simpl in *; simplify_eq; try done);
  try done.

Lemma core_level_local VISITORS self c :
  core_level c = true ->
  keeps_statements (run_call VISITORS self c) /\
  writes_cores_joins (run_call VISITORS self c) /\
  returns_only self (run_call VISITORS self c).
Proof.
  intros Hc. destruct c; try discriminate; simpl.
  - (* Project *)
    unfold managers.Project. split; [| split].
    + apply keeps_statements_bind; [| by intros _ h ss].
      apply keeps_statements_for_range. intros x h ss. local_crush.
    + apply writes_cores_joins_bind;
        [| intros _ h a h1 [= _ <-]; by destruct h].
      apply writes_cores_joins_for_range.
      intros x h a h1. destruct h. local_crush.
    + apply returns_only_bind. by intros _ h a h1 [= <- _].
  - (* Where *)
    unfold managers.Where. split; [| split].
    + intros h ss. local_crush.
    + intros h a h1. destruct h. local_crush.
    + intros h a h1. local_crush.
  - (* InnerJoin *)
    unfold managers.InnerJoin, managers.append_join,
      managers.Accessor_Relation, nodes.InnerJoin.
    split; [| split].
    + intros h ss. destruct table; local_crush.
    + intros h a h1. destruct h. destruct table; local_crush.
    + intros h a h1. destruct table; local_crush.
  - (* OuterJoin *)
    unfold managers.OuterJoin, managers.append_join,
      managers.Accessor_Relation, nodes.OuterJoin.
    split; [| split].
    + intros h ss. destruct table; local_crush.
    + intros h a h1. destruct h. destruct table; local_crush.
    + intros h a h1. destruct table; local_crush.
  - (* On *)
    unfold managers.On, managers.assign_join_Right. split; [| split].
    + intros h ss. local_crush.
    + intros h a h1. destruct h. local_crush.
    + intros h a h1. local_crush.
  - (* Group *)
    unfold managers.Group. split; [| split].
    + apply keeps_statements_bind; [| by intros _ h ss].
      apply keeps_statements_for_range. intros x h ss. local_crush.
    + apply writes_cores_joins_bind;
        [| intros _ h a h1 [= _ <-]; by destruct h].
      apply writes_cores_joins_for_range.
      intros x h a h1. destruct h. local_crush.
    + apply returns_only_bind. by intros _ h a h1 [= <- _].
  - (* Having *)
    unfold managers.Having. split; [| split].
    + intros h ss. local_crush.
    + intros h a h1. destruct h. local_crush.
    + intros h a h1. local_crush.
Qed.

Lemma statement_level_local VISITORS self c :
  statement_level c = true ->
  keeps_cores_joins (run_call VISITORS self c) /\
  writes_statements (run_call VISITORS self c) /\
  returns_only self (run_call VISITORS self c).
Proof.
  intros Hc.
  destruct c; try discriminate; simpl;
    unfold managers.Offset, managers.Limit, managers.Order, managers.Union,
      managers.Intersect, managers.Except, managers.combine;
    (split;
       [ intros h cs js; local_crush
       | split;
           [ intros h a h1; destruct h; local_crush
           | intros h a h1; local_crush ] ]).
Qed.

(** X14. A call that works on the current core (projection, filter, group,
    having, join, join predicate) and a call that works on the statement
    (limit, offset, order, set operation) can be made in either order, on
    every store: both orders return the same builder and leave the same
    store, or both panic. *)
Theorem core_and_statement_calls_commute
    (VISITORS : value -> option Visitor) self c1 c2 h :
  core_level c1 = true ->
  statement_level c2 = true ->
  run_calls VISITORS self [c1; c2] h = run_calls VISITORS self [c2; c1] h.
Proof.
  intros H1 H2.
  destruct (core_level_local VISITORS self c1 H1) as (Hk1 & Hw1 & Hr1).
  destruct (statement_level_local VISITORS self c2 H2) as (Hk2 & Hw2 & Hr2).
  simpl. unfold bind, ret.
  destruct (run_call VISITORS self c1 h) as [a1 h1|] eqn:E1;
    destruct (run_call VISITORS self c2 h) as [a2 h2|] eqn:E2.
  - pose proof (Hr1 _ _ _ E1) as ->. pose proof (Hr2 _ _ _ E2) as ->.
    pose proof (Hw1 _ _ _ E1) as Eh1. pose proof (Hw2 _ _ _ E2) as Eh2.
    assert (F2 : run_call VISITORS self c2 h1 =
                 Returns self
                   (with_cores (core_store h1)
                      (with_joins (join_store h1) h2))).
    { replace (run_call VISITORS self c2 h1)
        with (run_call VISITORS self c2
                (with_cores (core_store h1) (with_joins (join_store h1) h)))
        by (by rewrite <- Eh1).
      by rewrite Hk2, E2. }
    assert (F1 : run_call VISITORS self c1 h2 =
                 Returns self (with_statements (statement_store h2) h1)).
    { replace (run_call VISITORS self c1 h2)
        with (run_call VISITORS self c1
                (with_statements (statement_store h2) h))
        by (by rewrite <- Eh2).
      by rewrite Hk1, E1. }
    rewrite F1, F2. f_equal.
    transitivity (with_cores (core_store h1)
                    (with_joins (join_store h1)
                       (with_statements (statement_store h2) h))).
    + by rewrite <- Eh2.
    + change (with_statements (statement_store h2)
                (with_cores (core_store h1) (with_joins (join_store h1) h)) =
              with_statements (statement_store h2) h1).
      by rewrite <- Eh1.
  - pose proof (Hr1 _ _ _ E1) as ->.
    replace (run_call VISITORS self c2 h1)
      with (run_call VISITORS self c2
              (with_cores (core_store h1) (with_joins (join_store h1) h)))
      by (by rewrite <- (Hw1 _ _ _ E1)).
    by rewrite Hk2, E2.
  - pose proof (Hr2 _ _ _ E2) as ->.
    replace (run_call VISITORS self c1 h2)
      with (run_call VISITORS self c1
              (with_statements (statement_store h2) h))
      by (by rewrite <- (Hw2 _ _ _ E2)).
    by rewrite Hk1, E1.
  - reflexivity.
Qed.

Lemma core_and_statement_calls_commute_witness :
  run_calls sample_registry 1
    [CallInnerJoin (RelationPtr 1); CallUnion 1] users_heap =
  run_calls sample_registry 1
    [CallUnion 1; CallInnerJoin (RelationPtr 1)] users_heap.
Proof.
  apply (core_and_statement_calls_commute sample_registry 1%positive
           (CallInnerJoin (RelationPtr 1)) (CallUnion 1) users_heap);
    reflexivity.
Defined.

(** X15. [ToSql] on the left builder of a set operation gives the default
    projection to the cores of its own statement only: a core of the right
    builder's statement that has no projection, and is not a core of the
    left one, still has none after [a.Union(b)] and [a.ToSql()], while the
    statement of [a] that the visitor receives refers to the statement of
    [b]. *)
Theorem ToSql_defaults_own_cores_only
    (VISITORS : value -> option Visitor) h a b ma mb ta tb v core c :
  manager_store h !! a = Some ma ->
  manager_store h !! b = Some mb ->
  statement_store h !! Tree ma = Some ta ->
  statement_store h !! Tree mb = Some tb ->
  cores_allocated h (Cores ta) = true ->
  VISITORS (effective_engine ma) = Some v ->
  core ∈ Cores tb ->
  core ∉ Cores ta ->
  core_store h !! core = Some c ->
  Projections c = [] ->
  exists h',
    (s <- managers.Union a b;; managers.ToSql VISITORS s) h =
      Returns (Accept v h' (Tree ma)) h' /\
    statement_store h' !! Tree ma =
      Some (set_Combinator (Some (UnionNode (Tree ma) (Tree mb))) ta) /\
    statement_store h' !! Tree mb = Some tb /\
    core_store h' !! core = Some c /\
    Projections <$> core_store h' !! core = Some [] /\
    Combinator <$> statement_store h' !! Tree ma =
      Some (Some (UnionNode (Tree ma) (Tree mb))).
Proof.
  intros Ha Hb Hta Htb Hall Hv Hin Hnin Hc Hnil.
  assert (Hne : Tree ma <> Tree mb).
  { intros E. rewrite <- E in Htb. by simplify_eq. }
  rewrite (bind_returns _ _ _ _ _
             (combine_returns nodes.Union h a b ma mb ta Ha Hb Hta)).
  set (ta' := set_Combinator (Some (nodes.Union (Tree ma) (Tree mb))) ta).
  set (h1 := with_statements (<[Tree ma := ta']> (statement_store h)) h).
  assert (Ha1 : manager_store h1 !! a = Some ma) by exact Ha.
  assert (Ht1 : statement_store h1 !! Tree ma = Some ta')
    by apply lookup_insert_eq.
  destruct (ToSql_returns VISITORS h1 a ma ta' v Ha1 Ht1 Hall Hv)
    as (h' & Hrun & _ & _ & Hst & _ & Hcores).
  assert (Hcore : core_store h' !! core = Some c)
    by (rewrite Hcores; by rewrite decide_False).
  exists h'. split; [exact Hrun |]. split; [by rewrite Hst |]. split.
  - rewrite Hst. unfold h1. simpl. by rewrite lookup_insert_ne.
  - split; [exact Hcore |]. split.
    + by rewrite Hcore, <- Hnil.
    + by rewrite Hst, Ht1.
Qed.

Lemma ToSql_defaults_own_cores_only_witness :
  exists h',
    (s <- managers.Union 1 2;; managers.ToSql sample_registry s)
      two_builders_heap = Returns (Accept sample_visitor h' 1) h' /\
    Projections <$> core_store h' !! 2%positive = Some [] /\
    Combinator <$> statement_store h' !! 1%positive =
      Some (Some (UnionNode 1 2)).
Proof.
  destruct (ToSql_defaults_own_cores_only sample_registry two_builders_heap
              1%positive 2%positive users_manager posts_manager
              (fresh_statement 1) (fresh_statement 2) sample_visitor
              2%positive (fresh_core 2))
    as (h' & Hrun & Hta & _ & Hcore & _);
    [reflexivity | reflexivity | reflexivity | reflexivity | reflexivity
    | reflexivity | constructor | | reflexivity | reflexivity |].
  { intros Hin. apply list_elem_of_singleton in Hin. discriminate Hin. }
  exists h'. split; [exact Hrun |]. split.
  - exact (f_equal (fmap Projections) Hcore).
  - exact (f_equal (fmap Combinator) Hta).
Defined.

(** * Properties of the result rows of [librarian] *)

Lemma result_loop_spec c xs : forall i done r,
  i + length xs <= length c ->
  exists r',
    librarian.result_loop c i (map librarian.DPtr xs) done r =
      Some (r', done ++ map librarian.convert xs) /\
    (forall name,
       is_Some (r' !! name) <->
       is_Some (r !! name) \/
       exists j, j < length xs /\ c !! (i + j) = Some name) /\
    (forall name,
       (forall j, j < length xs -> c !! (i + j) <> Some name) ->
       r' !! name = r !! name) /\
    (forall j x name,
       xs !! j = Some x ->
       c !! (i + j) = Some name ->
       (forall j', j < j' -> j' < length xs -> c !! (i + j') <> Some name) ->
       r' !! name = Some (librarian.convert x)) /\
    (forall name y,
       r' !! name = Some y ->
       r !! name = Some y \/
       exists j x, xs !! j = Some x /\ y = librarian.convert x).
Proof.
  induction xs as [|x xs IH]; intros i done r Hlen.
  - exists r. simpl. rewrite app_nil_r. split; [done |].
    split; [| split; [| split]].
    + intros name. split; [auto |]. intros [H | (j & Hj & _)]; [done | lia].
    + done.
    + intros j y name Hj. by rewrite lookup_nil in Hj.
    + auto.
  - simpl in Hlen.
    destruct (lookup_lt_is_Some_2 c i ltac:(lia)) as [k Hk].
    destruct (IH (S i) (done ++ [librarian.convert x])
                (<[k := librarian.convert x]> r) ltac:(lia))
      as (r' & Hrun & Hdom & Hother & Hlast & Hval).
    exists r'. simpl. rewrite Hk. rewrite Hrun, <- app_assoc.
    split; [done |]. split; [| split; [| split]].
    + intros name. rewrite Hdom. split.
      * intros [H | (j & Hj & Hc)].
        -- rewrite lookup_insert in H. case_decide as E; [| by left].
           right. exists 0. split; [lia |]. rewrite Nat.add_0_r. by rewrite <- E.
        -- right. exists (S j). split; [lia |].
           by replace (i + S j) with (S i + j) by lia.
      * intros [H | (j & Hj & Hc)].
        -- left. by apply is_Some_insert_mono.
        -- destruct j as [|j].
           ++ left. rewrite Nat.add_0_r in Hc. assert (k = name) as -> by congruence.
              rewrite lookup_insert_eq. by eexists.
           ++ right. exists j. split; [lia |].
              by replace (S i + j) with (i + S j) by lia.
    + intros name Hno. rewrite Hother.
      * apply lookup_insert_ne. intros ->.
        apply (Hno 0); [lia | by rewrite Nat.add_0_r].
      * intros j Hj. replace (S i + j) with (i + S j) by lia.
        apply Hno. lia.
    + intros j y name Hx Hc Hlater. destruct j as [|j].
      * simpl in Hx. injection Hx as <-. rewrite Nat.add_0_r in Hc.
        assert (k = name) as -> by congruence.
        rewrite Hother; [apply lookup_insert_eq |].
        intros j Hj. replace (S i + j) with (i + S j) by lia.
        apply Hlater; lia.
      * simpl in Hx. apply (Hlast j y name Hx).
        -- by replace (S i + j) with (i + S j) by lia.
        -- intros j' Hlt Hj'. replace (S i + j') with (i + S j') by lia.
           apply Hlater; lia.
    + intros name y Hy. destruct (Hval name y Hy) as [H0 | (j & z & Hz & ->)].
      * rewrite lookup_insert in H0. case_decide; [| by left].
        right. exists 0, x. split; [done | congruence].
      * right. by exists (S j), z.
Qed.

Lemma result_loop_out_of_range c p : forall i done r,
  i <= length c ->
  length c < i + length p ->
  librarian.result_loop c i p done r = None.
Proof.
  induction p as [|v p IH]; intros i done r Hi Hlen; simpl in *; [lia |].
  destruct v; try done.
  destruct (c !! i) as [k|] eqn:Hk; [| done].
  apply lookup_lt_Some in Hk. apply IH; lia.
Qed.

Lemma result_loop_not_pointer c p : forall i done r,
  (exists v, v ∈ p /\ forall x, v <> librarian.DPtr x) ->
  librarian.result_loop c i p done r = None.
Proof.
  induction p as [|v p IH]; intros i done r (w & Hin & Hw).
  - by apply not_elem_of_nil in Hin.
  - simpl. apply elem_of_cons in Hin as [-> | Hin].
    + destruct v; try done. by destruct (Hw v).
    + destruct v; try done. destruct (c !! i); [| done].
      apply IH. eauto.
Qed.

(** X16. [generateResultMap], given a slice of pointers to scanned values
    that is no longer than the column names, returns the map whose keys are
    exactly the names at the indices of the slice; each name is bound to the
    converted value at its index (integers, times, floats and booleans as
    they are, a byte slice as the string of its bytes, anything else, a Go
    string included, as nil), a name that occurs twice to the value at its
    last index; the slice is left holding the converted values. *)
Theorem generateResultMap_binds_columns c xs :
  length xs <= length c ->
  exists r,
    librarian.generateResultMap c (map librarian.DPtr xs) =
      Some (r, map librarian.convert xs) /\
    (forall name,
       is_Some (r !! name) <->
       exists j, j < length xs /\ c !! j = Some name) /\
    (forall j x name,
       xs !! j = Some x ->
       c !! j = Some name ->
       (forall j', j < j' -> j' < length xs -> c !! j' <> Some name) ->
       r !! name = Some (librarian.convert x)).
Proof.
  intros Hlen.
  destruct (result_loop_spec c xs 0 [] ∅ ltac:(simpl; lia))
    as (r & Hrun & Hdom & _ & Hlast & _).
  exists r. split; [exact Hrun |]. split.
  - intros name. rewrite Hdom. rewrite lookup_empty. split.
    + intros [[? H] | H]; [done | exact H].
    + auto.
  - intros j x name Hx Hc Hlater. by apply (Hlast j x name).
Qed.

Lemma generateResultMap_binds_columns_witness :
  exists r,
    librarian.generateResultMap ["id"; "name"; "id"]
      (map librarian.DPtr
         [librarian.DInt64 7; librarian.DBytes "ann"; librarian.DString "x"]) =
      Some (r, [librarian.DInt64 7; librarian.DString "ann"; librarian.DNil]) /\
    r !! "id" = Some librarian.DNil /\
    r !! "name" = Some (librarian.DString "ann").
Proof.
  destruct (generateResultMap_binds_columns ["id"; "name"; "id"]
              [librarian.DInt64 7; librarian.DBytes "ann"; librarian.DString "x"])
    as (r & Hrun & _ & Hlast); [simpl; lia |].
  exists r. split; [exact Hrun |]. split.
  - apply (Hlast 2 (librarian.DString "x") "id"); [reflexivity | reflexivity |].
    intros j' H1 H2. simpl in H2. lia.
  - apply (Hlast 1 (librarian.DBytes "ann") "name"); [reflexivity | reflexivity |].
    intros j' H1 H2. simpl in H2.
    assert (j' = 2) as -> by lia. discriminate.
Defined.

(** X17. [generateResultMap] panics when the slice is longer than the column
    names (the index into the names runs out of range), and when an entry of
    the slice is not a pointer to an [interface{}] (the type assertion
    fails). *)
Theorem generateResultMap_panics c p :
  (length c < length p -> librarian.generateResultMap c p = None) /\
  ((exists v, v ∈ p /\ forall x, v <> librarian.DPtr x) ->
   librarian.generateResultMap c p = None).
Proof.
  split.
  - intros Hlen. apply result_loop_out_of_range; simpl; lia.
  - apply result_loop_not_pointer.
Qed.

Lemma generateResultMap_panics_witness :
  librarian.generateResultMap ["id"]
    [librarian.DPtr (librarian.DInt64 1); librarian.DPtr librarian.DNil] =
    None /\
  librarian.generateResultMap ["id"] [librarian.DInt64 1] = None.
Proof.
  split.
  - apply (proj1 (generateResultMap_panics ["id"]
                    [librarian.DPtr (librarian.DInt64 1);
                     librarian.DPtr librarian.DNil])).
    simpl. lia.
  - apply (proj2 (generateResultMap_panics ["id"] [librarian.DInt64 1])).
    exists (librarian.DInt64 1). split; [constructor | discriminate].
Defined.

Lemma map_replicate {A B} (f : A -> B) n x :
  map f (replicate n x) = replicate n (f x).
Proof. induction n as [|n IH]; simpl; [done | by rewrite IH]. Qed.

Lemma fill_buffer v : forall m k (l : list librarian.dyn),
  length l = k + m ->
  foldl (fun p i => <[i := v]> p) l (seq k m) = take k l ++ replicate m v.
Proof.
  induction m as [|m IH]; intros k l Hlen; simpl.
  - rewrite app_nil_r, take_ge; [done | lia].
  - rewrite IH by (rewrite length_insert; lia).
    assert (Hk : k < length l) by lia.
    destruct (lookup_lt_is_Some_2 l k Hk) as [y Hy].
    rewrite (take_S_r _ _ v) by (apply list_lookup_insert_eq; lia).
    rewrite take_insert_ge by lia. by rewrite <- app_assoc.
Qed.

(** X18. [generateResultsBuffer] panics on a negative length and on a length
    above the largest one that [make] accepts, and for the lengths between
    returns that many pointers to nil values; [generateResultMap] on a
    buffer made for the number of column names, before anything is scanned
    into it, returns the map that binds every column name to nil. *)
Theorem generateResultsBuffer_nil_rows max_len c l :
  ((l < 0)%Z -> librarian.generateResultsBuffer max_len l = None) /\
  ((max_len < l)%Z -> librarian.generateResultsBuffer max_len l = None) /\
  ((0 <= l <= max_len)%Z ->
   librarian.generateResultsBuffer max_len l =
     Some (replicate (Z.to_nat l) (librarian.DPtr librarian.DNil))) /\
  ((Z.of_nat (length c) <= max_len)%Z ->
   exists r,
     librarian.generateResultsBuffer max_len (Z.of_nat (length c))
       ≫= librarian.generateResultMap c =
       Some (r, replicate (length c) librarian.DNil) /\
     forall name, r !! name = if decide (name ∈ c) then Some librarian.DNil
                              else None).
Proof.
  assert (Hbuf : forall n : nat,
            (Z.of_nat n <= max_len)%Z ->
            librarian.generateResultsBuffer max_len (Z.of_nat n) =
            Some (replicate n (librarian.DPtr librarian.DNil))).
  { intros n Hn. unfold librarian.generateResultsBuffer.
    destruct (Z.ltb_spec (Z.of_nat n) 0) as [H | _]; [lia |].
    destruct (Z.ltb_spec max_len (Z.of_nat n)) as [H | _]; [lia |].
    simpl. rewrite Nat2Z.id, length_replicate.
    rewrite (fill_buffer _ n 0) by (by rewrite length_replicate).
    reflexivity. }
  split; [| split; [| split]].
  - intros Hl. unfold librarian.generateResultsBuffer.
    by destruct (Z.ltb_spec l 0) as [_ | H]; [| lia].
  - intros Hl. unfold librarian.generateResultsBuffer.
    destruct (Z.ltb_spec max_len l) as [_ | H]; [| lia].
    by rewrite orb_true_r.
  - intros [Hl Hmax]. rewrite <- (Z2Nat.id l Hl) at 1. apply Hbuf.
    by rewrite Z2Nat.id.
  - intros Hmax. rewrite (Hbuf _ Hmax). simpl.
    destruct (result_loop_spec c (replicate (length c) librarian.DNil) 0 [] ∅)
      as (r & Hrun & Hdom & Hother & _ & Hval);
      [rewrite length_replicate; simpl; lia |].
    exists r. split.
    + unfold librarian.generateResultMap.
      rewrite <- (map_replicate librarian.DPtr), Hrun. simpl.
      by rewrite map_replicate.
    + intros name. rewrite length_replicate in *.
      destruct (decide (name ∈ c)) as [Hin | Hnin].
      * assert (Hs : is_Some (r !! name)).
        { apply Hdom. right. apply list_elem_of_lookup in Hin as [j Hj].
          exists j. split; [by apply lookup_lt_Some in Hj | exact Hj]. }
        destruct Hs as [y Hy]. rewrite Hy. f_equal.
        destruct (Hval name y Hy) as [H0 | (j & x & Hx & ->)]; [done |].
        apply lookup_replicate in Hx as [-> _]. reflexivity.
      * rewrite Hother; [apply lookup_empty |].
        intros j Hj Hc. apply Hnin. apply list_elem_of_lookup. by exists j.
Qed.

Lemma generateResultsBuffer_nil_rows_witness :
  librarian.generateResultsBuffer 1000 (-1) = None /\
  librarian.generateResultsBuffer 1000 1001 = None /\
  librarian.generateResultsBuffer 1000 2 =
    Some [librarian.DPtr librarian.DNil; librarian.DPtr librarian.DNil] /\
  exists r,
    librarian.generateResultsBuffer 1000 2
      ≫= librarian.generateResultMap ["id"; "name"] =
      Some (r, [librarian.DNil; librarian.DNil]) /\
    r !! "name" = Some librarian.DNil.
Proof.
  destruct (generateResultsBuffer_nil_rows 1000%Z ["id"; "name"] (-1)%Z)
    as (Hneg & _ & _ & Hrows).
  destruct (generateResultsBuffer_nil_rows 1000%Z [] 1001%Z) as (_ & Hbig & _).
  destruct (generateResultsBuffer_nil_rows 1000%Z [] 2%Z) as (_ & _ & Hpos & _).
  split; [apply Hneg; lia |]. split; [apply Hbig; lia |].
  split; [apply Hpos; lia |].
  destruct Hrows as (r & Hrun & Hr); [simpl; lia |].
  exists r. split; [exact Hrun |]. exact (Hr "name").
Defined.


